(** * The schema proxy of the Arrow MATLAB interface

    A shallow embedding of
    [matlab/src/cpp/arrow/matlab/tabular/proxy/schema.cc]: the proxy class
    [arrow::matlab::tabular::proxy::Schema], its factory [make] and its five
    registered methods, together with the parts of the collaborating
    libraries (the Arrow schema, the libmexclass proxy manager, the MATLAB
    data arrays) that the methods call.

    - integers are [Z] (or [N] for unsigned ones); unsigned arithmetic and
      conversions have the wrap-around of the C++ type written out, and
      signed arithmetic that leaves the range of its type is undefined
      behaviour;
    - [std::string] is [string] (a sequence of bytes, UTF-8 on the Arrow
      side), [std::u16string] is a list of 16-bit code units;
    - the process-wide proxy manager and the per-call [Context] are passed
      explicitly: a method maps the manager and the context it is given to
      the manager and the context it leaves behind;
    - a call that leaves through an exception of the marshalling layer
      [Throws]; a call that runs into undefined behaviour of C++ is
      [Undefined]. *)

From stdpp Require Import base option list gmap strings pretty.
From Stdlib Require Import ZArith Lia.

Local Open Scope Z_scope.

(** ** Outcomes of a call *)

Inductive outcome (A : Type) : Type :=
| Returns (a : A)
| Throws
| Undefined.
Arguments Returns {A} a.
Arguments Throws {A}.
Arguments Undefined {A}.

#[global] Instance outcome_ret : MRet outcome := @Returns.
#[global] Instance outcome_bind : MBind outcome := λ A B f m,
  match m with
  | Returns a => f a
  | Throws => Throws
  | Undefined => Undefined
  end.

(** ** Machine integers *)

(** The conversion [int32_t(z)] of an integer value to [int32_t] (two's
    complement; the identity on the values of the type). *)
Definition int32 (z : Z) : Z := (z + 2 ^ 31) `mod` 2 ^ 32 - 2 ^ 31.

(** [a - b] on [int32_t] operands: a difference outside of the range of the
    type is a signed overflow, which is undefined behaviour. *)
Definition int32_sub (a b : Z) : outcome Z :=
  if (- 2 ^ 31 <=? a - b) && (a - b <? 2 ^ 31) then Returns (a - b) else Undefined.

(** [static_cast<size_t>] of a signed value, on a 64-bit platform. *)
Definition size_t (z : Z) : N := Z.to_N (z `mod` 2 ^ 64).

(** The next value of a [uint64_t] counter. *)
Definition uint64_succ (n : N) : N := ((n + 1) `mod` 2 ^ 64)%N.

(** [std::ostream::operator<<] on an [int]: the decimal digits, with a
    leading minus sign for a negative value. *)
Definition show_int (z : Z) : string := pretty z.

(** [std::u16string]: a sequence of UTF-16 code units. *)
Definition u16string : Type := list N.

(** ** The Arrow library *)

Module arrow.

(** Modelled from the spec: [arrow::Status] is declared in the Arrow
    library; here reduced to what the proxy reads of it: whether it is OK,
    and its message. *)
Inductive Status : Type :=
| OK
| Invalid (message : string).

(** Modelled from the spec: [arrow::Result<T>], a value or a failed
    status. *)
Inductive Result (T : Type) : Type :=
| Value (v : T)
| Failed (message : string).
Arguments Value {T} v.
Arguments Failed {T} message.

(** Modelled from the spec: [arrow::Field], a descriptor (name, type,
    nullability), opaque to the proxy apart from its name. *)
Record Field : Type := {
  name : string;
  type : string;
  nullable : bool
}.

#[global] Instance Field_eq_dec : EqDecision Field.
Proof. solve_decision. Defined.

(** Modelled from the spec: [arrow::Schema], an ordered, immutable
    sequence of fields. *)
Record Schema : Type := { fields : list Field }.

(** Modelled from the spec: [arrow::schema(fields)] builds the schema of
    the fields, in their order. *)
Definition schema (fields : list Field) : Schema := {| fields := fields |}.

(** Modelled from the spec: [Schema::num_fields] is the number [n >= 0] of
    fields of the schema [f_0 ... f_(n-1)]. *)
Definition num_fields (s : Schema) : Z := Z.of_nat (length (fields s)).

(** Modelled from the spec: [Schema::field(i)] is 0-based and performs no
    bounds check. [None] stands for the access outside of the vector. *)
Definition field (s : Schema) (i : Z) : option Field :=
  if i <? 0 then None else fields s !! Z.to_nat i.

(** Modelled from the spec: [Schema::field_names], the names in order. *)
Definition field_names (s : Schema) : list string := name <$> fields s.

(** Modelled from the spec: [Schema::GetFieldByName] yields the field of
    that name when exactly one field has it, and a null pointer when the
    name is absent or matches more than one field. *)
Definition GetFieldByName (s : Schema) (n : string) : option Field :=
  match filter (λ f, name f = n) (fields s) with
  | [f] => Some f
  | _ => None
  end.

(** Modelled from the spec: [Schema::CanReferenceFieldsByNames] signals
    the first name of the list that is absent or ambiguous. *)
Fixpoint CanReferenceFieldsByNames (s : Schema) (names : list string) : Status :=
  match names with
  | [] => OK
  | n :: names' =>
      match GetFieldByName s n with
      | None => Invalid ("Field named '" +:+ n +:+ "' not found or not unique in the schema.")
      | Some _ => CanReferenceFieldsByNames s names'
      end
  end.

End arrow.

(** ** MATLAB data arrays *)

Module mda.

(** Modelled from the spec: the host marshalling layer ([matlab::data]) has
    typed arrays, string arrays of UTF-16 strings and struct arrays.
    [Array] has the element types that cross this proxy, with the
    dimensions and the elements in order; a struct array element maps field
    names to arrays. *)
#[local] Unset Elimination Schemes.
Inductive Array : Type :=
| TypedArray_int32 (dims : list N) (data : list Z)
| TypedArray_uint64 (dims : list N) (data : list N)
| StringArray (dims : list N) (data : list u16string)
| StructArray (dims : list N) (data : list (list (string * Array))).
#[local] Set Elimination Schemes.

(** Modelled from the spec: the conversions [mda::StructArray x = a],
    [mda::TypedArray<T> x = a] and [mda::StringArray x = a] of the
    marshalling layer throw when [a] has another type. *)
Definition to_StructArray (a : option Array) : outcome (list (list (string * Array))) :=
  match a with
  | Some (StructArray _ data) => Returns data
  | _ => Throws
  end.

Definition to_TypedArray_int32 (a : Array) : outcome (list Z) :=
  match a with
  | TypedArray_int32 _ data => Returns data
  | _ => Throws
  end.

Definition to_TypedArray_uint64 (a : Array) : outcome (list N) :=
  match a with
  | TypedArray_uint64 _ data => Returns data
  | _ => Throws
  end.

Definition to_StringArray (a : Array) : outcome (list u16string) :=
  match a with
  | StringArray _ data => Returns data
  | _ => Throws
  end.

Fixpoint assoc (key : string) (s : list (string * Array)) : option Array :=
  match s with
  | [] => None
  | (k, a) :: s' => if decide (k = key) then Some a else assoc key s'
  end.

(** Modelled from the spec: [args[i][key]] on a struct array; it throws
    when the element or the field is missing. *)
Definition struct_field (args : list (list (string * Array))) (i : nat) (key : string)
  : outcome Array :=
  match args !! i with
  | Some s => match assoc key s with Some a => Returns a | None => Throws end
  | None => Throws
  end.

(** Modelled from the spec: [a[i]] on a typed array; it throws outside of
    the array. *)
Definition at_index {T} (data : list T) (i : nat) : outcome T :=
  match data !! i with
  | Some x => Returns x
  | None => Throws
  end.

(** Modelled from the spec: [ArrayFactory::createScalar], by element type;
    a scalar is a 1 x 1 array. *)
Definition createScalar_int32 (x : Z) : Array := TypedArray_int32 [1; 1]%N [x].
Definition createScalar_uint64 (x : N) : Array := TypedArray_uint64 [1; 1]%N [x].
Definition createScalar_string (x : u16string) : Array := StringArray [1; 1]%N [x].

(** Modelled from the spec: [ArrayFactory::createArray(dims, begin, end)]
    on strings. *)
Definition createArray_string (dims : list N) (data : list u16string) : Array :=
  StringArray dims data.

End mda.

(** ** Errors of the MATLAB interface *)

Module error.

(** Modelled from the spec: the error identifiers are string constants of
    [arrow/matlab/error/error.h]; the schema proxy uses these five, which
    are pairwise distinguishable. *)
Inductive Id : Type :=
| ARROW_TABULAR_SCHEMA_UNKNOWN_FIELD_NAME
| ARROW_TABULAR_SCHEMA_NUMERIC_FIELD_INDEX_WITH_EMPTY_SCHEMA
| ARROW_TABULAR_SCHEMA_INVALID_NUMERIC_FIELD_INDEX
| ARROW_TABULAR_SCHEMA_AMBIGUOUS_FIELD_NAME
| UNICODE_CONVERSION_ERROR_ID.

#[global] Instance Id_eq_dec : EqDecision Id.
Proof. solve_decision. Defined.

End error.

(** ** libmexclass: errors, call contexts, proxies and their manager *)

Module libmexclass.

(** Modelled from the spec: [libmexclass::error::Error], the error record
    of an identifier and a message. *)
Record Error : Type := { id : error.Id; message : string }.

(** Modelled from the spec: [libmexclass::proxy::method::Context], the
    inputs of the call, its output slots (a slot that was not assigned is
    absent), and the optional error record. *)
Record Context : Type := {
  inputs : list mda.Array;
  outputs : gmap nat mda.Array;
  error : option Error
}.

(** [context.error = e] *)
Definition set_error (context : Context) (e : Error) : Context :=
  {| inputs := inputs context; outputs := outputs context; error := Some e |}.

(** [context.outputs[i] = a] *)
Definition set_output (context : Context) (i : nat) (a : mda.Array) : Context :=
  {| inputs := inputs context; outputs := <[i := a]> (outputs context);
     error := error context |}.

(** Modelled from the spec: the field proxy
    [arrow::matlab::type::proxy::Field] wraps a shared pointer to a field,
    which may be null. *)
Record FieldProxy : Type := { field : option arrow.Field }.

(** [arrow::matlab::tabular::proxy::Schema] holds the schema it was
    constructed with. *)
Record SchemaProxy : Type := { schema : arrow.Schema }.

(** The proxies the manager holds. *)
Inductive Proxy : Type :=
| Proxy_Field (p : FieldProxy)
| Proxy_Schema (p : SchemaProxy).

(** Modelled from the spec: [Field::unwrap] of the field proxy yields the
    wrapped pointer. *)
Definition Field_unwrap (p : FieldProxy) : option arrow.Field := field p.

(** [Schema::unwrap] *)
Definition unwrap (p : SchemaProxy) : arrow.Schema := schema p.

(** [std::static_pointer_cast<proxy::Field>]: unchecked; on a proxy of
    another class the behaviour is undefined. *)
Definition static_pointer_cast_Field (p : Proxy) : outcome FieldProxy :=
  match p with
  | Proxy_Field f => Returns f
  | _ => Undefined
  end.

(** Modelled from the spec: the proxy registry [ProxyManager] of
    libmexclass, a process-wide map from 64-bit identifiers to proxies.
    Registration stores the proxy under the value of a counter, which it
    advances. *)
Record ProxyManager : Type := {
  proxy_map : gmap N Proxy;
  current_proxy_id : N
}.

(** Modelled from the spec: [ProxyManager::manageProxy] registers the proxy
    and yields its identifier, the value of the counter, which advances as
    a [uint64_t] does. *)
Definition manageProxy (pm : ProxyManager) (proxy : Proxy) : N * ProxyManager :=
  let id := current_proxy_id pm in
  (id, {| proxy_map := <[id := proxy]> (proxy_map pm);
          current_proxy_id := uint64_succ id |}).

(** Modelled from the spec: [ProxyManager::getProxy] retrieves a proxy by
    its identifier; a miss leaves through the registry's own failure
    channel. *)
Definition getProxy (pm : ProxyManager) (id : N) : outcome Proxy :=
  match proxy_map pm !! id with
  | Some p => Returns p
  | None => Throws
  end.

End libmexclass.

(** ** The schema proxy *)

Import libmexclass.

(** Modelled from the spec: the macro
    [MATLAB_ASSIGN_OR_ERROR_WITH_CONTEXT(lhs, rexpr, context, id)] is defined
    in [arrow/matlab/error/error.h]. When [rexpr] failed, it records the
    error under [id] with the message of the status and returns from the
    method; otherwise the method goes on ([rest]) with the value. *)
Definition MATLAB_ASSIGN_OR_ERROR_WITH_CONTEXT {T S : Type}
    (rexpr : arrow.Result T) (context : Context) (id : error.Id)
    (pm : S) (rest : T → outcome (S * Context)) : outcome (S * Context) :=
  match rexpr with
  | arrow.Value v => rest v
  | arrow.Failed msg => Returns (pm, set_error context {| id := id; message := msg |})
  end.

(** Modelled from the spec: the macro
    [MATLAB_ERROR_IF_NOT_OK_WITH_CONTEXT(expr, context, id)] of the same
    header does the same on a status. *)
Definition MATLAB_ERROR_IF_NOT_OK_WITH_CONTEXT {S : Type}
    (expr : arrow.Status) (context : Context) (id : error.Id)
    (pm : S) (rest : outcome (S * Context)) : outcome (S * Context) :=
  match expr with
  | arrow.OK => rest
  | arrow.Invalid msg => Returns (pm, set_error context {| id := id; message := msg |})
  end.

Definition makeUnknownFieldNameError (name : string) : Error :=
  {| id := error.ARROW_TABULAR_SCHEMA_UNKNOWN_FIELD_NAME;
     message := "Unknown field name: '" +:+ name +:+ "'." |}.

Definition makeEmptySchemaError : Error :=
  {| id := error.ARROW_TABULAR_SCHEMA_NUMERIC_FIELD_INDEX_WITH_EMPTY_SCHEMA;
     message := "Numeric indexing using the field method is not supported for schemas with no fields." |}.

(** The loop of [make]: each identifier is looked up in the manager, the
    proxy narrowed to a field proxy and unwrapped, and the field pushed at
    the back of [fields]. *)
Fixpoint make_fields (pm : ProxyManager) (field_proxy_ids : list N)
    (fields : list (option arrow.Field)) : outcome (list (option arrow.Field)) :=
  match field_proxy_ids with
  | [] => Returns fields
  | proxy_id :: rest =>
      p ← getProxy pm proxy_id;
      proxy ← static_pointer_cast_Field p;
      let field := Field_unwrap proxy in
      make_fields pm rest (fields ++ [field])
  end.

(** [arrow::schema(fields)] on shared pointers: the library reads the name
    of every field, so a null pointer among them is undefined behaviour. *)
Definition arrow_schema (fields : list (option arrow.Field)) : outcome arrow.Schema :=
  match mapM (λ field, field) fields with
  | Some fs => Returns (arrow.schema fs)
  | None => Undefined
  end.

Definition make (pm : ProxyManager) (constructor_arguments : list mda.Array)
    : outcome SchemaProxy :=
  args ← mda.to_StructArray (constructor_arguments !! 0%nat);
  a ← mda.struct_field args 0 "FieldProxyIDs";
  field_proxy_ids_mda ← mda.to_TypedArray_uint64 a;
  fields ← make_fields pm field_proxy_ids_mda [];
  schema ← arrow_schema fields;
  Returns {| schema := schema |}.

(** A method of a proxy: from the manager and the context of the call to
    what the call leaves of them. *)
Definition method : Type := ProxyManager → Context → outcome (ProxyManager * Context).

Section proxy.

(** The Arrow functions that the proxy calls and that the schema does not
    determine: the two UTF conversions of [arrow/util/utf8.h], and the
    rendering [Schema::ToString]. *)
Variable UTF16StringToUTF8 : u16string → arrow.Result string.
Variable UTF8StringToUTF16 : string → arrow.Result u16string.
Variable ToString : arrow.Schema → string.

Definition getFieldByIndex (self : SchemaProxy) : method := λ pm context,
  args ← mda.to_StructArray (inputs context !! 0%nat);
  a ← mda.struct_field args 0 "Index";
  index_mda ← mda.to_TypedArray_int32 a;
  index_mda_0 ← mda.at_index index_mda 0;
  let matlab_index := int32 index_mda_0 in
  (* Note: MATLAB uses 1-based indexing, so subtract 1. *)
  index ← int32_sub matlab_index 1;
  let num_fields := arrow.num_fields (schema self) in
  if num_fields =? 0 then
    let error := makeEmptySchemaError in
    Returns (pm, set_error context error)
  else if (matlab_index <? 1) || (matlab_index >? num_fields) then
    let error_message_id := error.ARROW_TABULAR_SCHEMA_INVALID_NUMERIC_FIELD_INDEX in
    let error_message :=
      "Invalid field index: " +:+ show_int matlab_index
      +:+ ". Field index must be between 1 and the number of fields ("
      +:+ show_int num_fields +:+ ")." in
    Returns (pm, set_error context {| id := error_message_id; message := error_message |})
  else
    match arrow.field (schema self) index with
    | None => Undefined
    | Some field =>
        let field_proxy := {| field := Some field |} in
        let '(field_proxy_id, pm') := manageProxy pm (Proxy_Field field_proxy) in
        let field_proxy_id_mda := mda.createScalar_uint64 field_proxy_id in
        Returns (pm', set_output context 0 field_proxy_id_mda)
    end.

Definition getFieldByName (self : SchemaProxy) : method := λ pm context,
  args ← mda.to_StructArray (inputs context !! 0%nat);
  a ← mda.struct_field args 0 "Name";
  name_mda ← mda.to_StringArray a;
  name_utf16 ← mda.at_index name_mda 0;
  MATLAB_ASSIGN_OR_ERROR_WITH_CONTEXT (UTF16StringToUTF8 name_utf16) context
    error.UNICODE_CONVERSION_ERROR_ID pm (λ name,
  let names := [name] in
  MATLAB_ERROR_IF_NOT_OK_WITH_CONTEXT (arrow.CanReferenceFieldsByNames (schema self) names)
    context error.ARROW_TABULAR_SCHEMA_AMBIGUOUS_FIELD_NAME pm (
  let field := arrow.GetFieldByName (schema self) name in
  let field_proxy := {| field := field |} in
  let '(field_proxy_id, pm') := manageProxy pm (Proxy_Field field_proxy) in
  let field_proxy_id_mda := mda.createScalar_uint64 field_proxy_id in
  Returns (pm', set_output context 0 field_proxy_id_mda))).

Definition getNumFields (self : SchemaProxy) : method := λ pm context,
  let num_fields := arrow.num_fields (schema self) in
  let num_fields_mda := mda.createScalar_int32 num_fields in
  Returns (pm, set_output context 0 num_fields_mda).

(** The loop of [getFieldNames]: convert the names in order, pushing each
    at the back of [field_names_utf16]; the first failure ends the
    method with the error. *)
Fixpoint getFieldNames_loop (field_names_utf8 : list string)
    (field_names_utf16 : list u16string) (context : Context) (pm : ProxyManager)
    (rest : list u16string → outcome (ProxyManager * Context))
    : outcome (ProxyManager * Context) :=
  match field_names_utf8 with
  | [] => rest field_names_utf16
  | field_name_utf8 :: names' =>
      MATLAB_ASSIGN_OR_ERROR_WITH_CONTEXT (UTF8StringToUTF16 field_name_utf8) context
        error.UNICODE_CONVERSION_ERROR_ID pm (λ field_name_utf16,
      getFieldNames_loop names' (field_names_utf16 ++ [field_name_utf16]) context pm rest)
  end.

Definition getFieldNames (self : SchemaProxy) : method := λ pm context,
  let field_names_utf8 := arrow.field_names (schema self) in
  let num_fields := size_t (arrow.num_fields (schema self)) in
  getFieldNames_loop field_names_utf8 [] context pm (λ field_names_utf16,
  let field_names_mda := mda.createArray_string [1%N; num_fields] field_names_utf16 in
  Returns (pm, set_output context 0 field_names_mda)).

Definition toString (self : SchemaProxy) : method := λ pm context,
  let str_utf8 := ToString (schema self) in
  MATLAB_ASSIGN_OR_ERROR_WITH_CONTEXT (UTF8StringToUTF16 str_utf8) context
    error.UNICODE_CONVERSION_ERROR_ID pm (λ str_utf16,
  let str_mda := mda.createScalar_string str_utf16 in
  Returns (pm, set_output context 0 str_mda)).

(** The constructor registers the five methods under their names. *)
Definition registered_methods (self : SchemaProxy) : list (string * method) :=
  [ ("getFieldByIndex", getFieldByIndex self);
    ("getFieldByName", getFieldByName self);
    ("getNumFields", getNumFields self);
    ("getFieldNames", getFieldNames self);
    ("toString", toString self) ].

End proxy.

(** ** A reference instance of the functions the proxy is parametric in *)

Module lib.

Local Open Scope N_scope.

Definition bytes (s : string) : list N := Ascii.N_of_ascii <$> String.list_ascii_of_string s.
Definition of_bytes (bs : list N) : string := String.string_of_list_ascii (Ascii.ascii_of_N <$> bs).

Definition is_continuation (b : N) : bool := (0x80 <=? b) && (b <=? 0xBF).

(** Unicode scalar values: code points up to U+10FFFF that are no
    surrogates. *)
Definition is_scalar (cp : N) : bool :=
  (cp <=? 0x10FFFF) && negb ((0xD800 <=? cp) && (cp <=? 0xDFFF)).

(** Strict UTF-8 decoding: stray and missing continuation bytes, overlong
    forms, surrogates and values above U+10FFFF are refused. *)
Fixpoint utf8_decode (bs : list N) : option (list N) :=
  match bs with
  | [] => Some []
  | b0 :: r0 =>
      if b0 <? 0x80 then cps ← utf8_decode r0; Some (b0 :: cps)
      else if b0 <? 0xC0 then None
      else if b0 <? 0xE0 then
        match r0 with
        | b1 :: r1 =>
            let cp := (b0 - 0xC0) * 0x40 + (b1 - 0x80) in
            if is_continuation b1 && (0x80 <=? cp)
            then cps ← utf8_decode r1; Some (cp :: cps) else None
        | _ => None
        end
      else if b0 <? 0xF0 then
        match r0 with
        | b1 :: b2 :: r2 =>
            let cp := (b0 - 0xE0) * 0x1000 + (b1 - 0x80) * 0x40 + (b2 - 0x80) in
            if is_continuation b1 && is_continuation b2 && (0x800 <=? cp) && is_scalar cp
            then cps ← utf8_decode r2; Some (cp :: cps) else None
        | _ => None
        end
      else if b0 <? 0xF8 then
        match r0 with
        | b1 :: b2 :: b3 :: r3 =>
            let cp := (b0 - 0xF0) * 0x40000 + (b1 - 0x80) * 0x1000
                      + (b2 - 0x80) * 0x40 + (b3 - 0x80) in
            if is_continuation b1 && is_continuation b2 && is_continuation b3
               && (0x10000 <=? cp) && is_scalar cp
            then cps ← utf8_decode r3; Some (cp :: cps) else None
        | _ => None
        end
      else None
  end.

Definition utf8_encode_scalar (cp : N) : list N :=
  if cp <? 0x80 then [cp]
  else if cp <? 0x800 then [0xC0 + cp / 0x40; 0x80 + cp mod 0x40]
  else if cp <? 0x10000 then
    [0xE0 + cp / 0x1000; 0x80 + (cp / 0x40) mod 0x40; 0x80 + cp mod 0x40]
  else
    [0xF0 + cp / 0x40000; 0x80 + (cp / 0x1000) mod 0x40;
     0x80 + (cp / 0x40) mod 0x40; 0x80 + cp mod 0x40].

Definition utf16_encode_scalar (cp : N) : list N :=
  if cp <? 0x10000 then [cp]
  else [0xD800 + (cp - 0x10000) / 0x400; 0xDC00 + (cp - 0x10000) mod 0x400].

(** Strict UTF-16 decoding: a high surrogate is followed by a low one, and
    no low surrogate stands alone. *)
Fixpoint utf16_decode (us : list N) : option (list N) :=
  match us with
  | [] => Some []
  | u0 :: r0 =>
      if (u0 <? 0xD800) || ((0xE000 <=? u0) && (u0 <? 0x10000))
      then cps ← utf16_decode r0; Some (u0 :: cps)
      else if u0 <? 0xDC00 then
        match r0 with
        | u1 :: r1 =>
            if (0xDC00 <=? u1) && (u1 <? 0xE000)
            then cps ← utf16_decode r1;
                 Some (0x10000 + (u0 - 0xD800) * 0x400 + (u1 - 0xDC00) :: cps)
            else None
        | _ => None
        end
      else None
  end.

(** Modelled from the spec: the UTF conversion utility
    ([arrow/util/utf8.h]) converts between UTF-16 and UTF-8 and signals
    the failure of a conversion. *)
Definition UTF16StringToUTF8 (source : u16string) : arrow.Result string :=
  match utf16_decode source with
  | Some cps => arrow.Value (of_bytes (cps ≫= utf8_encode_scalar))
  | None => arrow.Failed "Invalid UTF16 sequence"
  end.

(** Modelled from the spec: the conversion of the same utility from UTF-8
    to UTF-16. *)
Definition UTF8StringToUTF16 (source : string) : arrow.Result u16string :=
  match utf8_decode (bytes source) with
  | Some cps => arrow.Value (cps ≫= utf16_encode_scalar)
  | None => arrow.Failed "Invalid UTF8 sequence"
  end.

(** Modelled from the spec: [Field::ToString], the rendering of a field
    by the library. *)
Definition Field_ToString (f : arrow.Field) : string :=
  arrow.name f +:+ ": " +:+ arrow.type f
  +:+ (if arrow.nullable f then "" else " not null").

Fixpoint ToString_fields (fs : list arrow.Field) : string :=
  match fs with
  | [] => ""
  | [f] => Field_ToString f
  | f :: fs' => Field_ToString f +:+ String (Ascii.ascii_of_N 10) (ToString_fields fs')
  end.

(** Modelled from the spec: [Schema::ToString] is the library's rendering of
    the schema; here, one line per field. *)
Definition ToString (s : arrow.Schema) : string := ToString_fields (arrow.fields s).

End lib.

(** ** What a call carries *)

(** The argument [Index] of a call, as [getFieldByIndex] reads it. *)
Definition input_Index (context : Context) : outcome Z :=
  args ← mda.to_StructArray (inputs context !! 0%nat);
  a ← mda.struct_field args 0 "Index";
  index_mda ← mda.to_TypedArray_int32 a;
  index_mda_0 ← mda.at_index index_mda 0;
  Returns (int32 index_mda_0).

(** The argument [Name] of a call, as [getFieldByName] reads it. *)
Definition input_Name (context : Context) : outcome u16string :=
  args ← mda.to_StructArray (inputs context !! 0%nat);
  a ← mda.struct_field args 0 "Name";
  name_mda ← mda.to_StringArray a;
  mda.at_index name_mda 0.

(** The argument [FieldProxyIDs] of the factory, as [make] reads it. *)
Definition input_FieldProxyIDs (constructor_arguments : list mda.Array) : outcome (list N) :=
  args ← mda.to_StructArray (constructor_arguments !! 0%nat);
  a ← mda.struct_field args 0 "FieldProxyIDs";
  mda.to_TypedArray_uint64 a.

(** The context of a call that has set neither an output nor an error
    yet. *)
Definition new_context (inputs : list mda.Array) : Context :=
  {| inputs := inputs; outputs := ∅; error := None |}.

(** The struct array of one element with one field. *)
Definition struct_of (key : string) (a : mda.Array) : mda.Array :=
  mda.StructArray [1; 1]%N [[(key, a)]].

(** The inputs of the calls [getFieldByIndex(i)], [getFieldByName(name)]
    and [make(ids)] as the MATLAB classes send them. *)
Definition Index_inputs (i : Z) : list mda.Array :=
  [struct_of "Index" (mda.createScalar_int32 i)].
Definition Name_inputs (name : u16string) : list mda.Array :=
  [struct_of "Name" (mda.createScalar_string name)].
Definition FieldProxyIDs_inputs (ids : list N) : list mda.Array :=
  [struct_of "FieldProxyIDs" (mda.TypedArray_uint64 [1%N; N.of_nat (length ids)] ids)].

(** The registry invariant: every identifier in use lies below the counter,
    and the counter has [k] values left before it wraps around. *)
Definition registry_ok (k : N) (pm : ProxyManager) : Prop :=
  map_Forall (λ i _, (i < current_proxy_id pm)%N) (proxy_map pm)
  ∧ (current_proxy_id pm + k < 2 ^ 64)%N.

(** [id] is registered in [pm] as a proxy of the field pointer [f]. *)
Definition holds_field (pm : ProxyManager) (id : N) (f : option arrow.Field) : Prop :=
  proxy_map pm !! id = Some (Proxy_Field {| field := f |}).

(** The registry a process starts with. *)
Definition empty_registry : ProxyManager :=
  {| proxy_map := ∅; current_proxy_id := 0 |}.

(** The number of times [x] occurs in [l]. *)
Definition occurrences {A} `{EqDecision A} (x : A) (l : list A) : nat :=
  length (filter (λ y, y = x) l).

(** A sample: three fields, registered in a fresh registry, and the schema
    made of them. *)
Module sample.

Definition field_a : arrow.Field := {| arrow.name := "a"; arrow.type := "int32"; arrow.nullable := true |}.
Definition field_b : arrow.Field := {| arrow.name := "b"; arrow.type := "string"; arrow.nullable := true |}.
Definition field_c : arrow.Field := {| arrow.name := "c"; arrow.type := "double"; arrow.nullable := false |}.

Definition registry : ProxyManager :=
  let '(_, pm) := manageProxy empty_registry (Proxy_Field {| field := Some field_a |}) in
  let '(_, pm) := manageProxy pm (Proxy_Field {| field := Some field_b |}) in
  let '(_, pm) := manageProxy pm (Proxy_Field {| field := Some field_c |}) in
  pm.

Definition abc : SchemaProxy := {| schema := arrow.schema [field_a; field_b; field_c] |}.
Definition aab : SchemaProxy := {| schema := arrow.schema [field_a; field_a; field_b] |}.
Definition empty : SchemaProxy := {| schema := arrow.schema [] |}.

(** The methods at the reference instance of the library functions. *)
Definition getFieldByIndex := getFieldByIndex.
Definition getFieldByName := getFieldByName lib.UTF16StringToUTF8.
Definition getNumFields := getNumFields.
Definition getFieldNames := getFieldNames lib.UTF8StringToUTF16.
Definition toString := toString lib.UTF8StringToUTF16 lib.ToString.

End sample.

(** Further registries for the sample: one that holds a schema proxy under
    the identifier 3, and one that holds, under that identifier, a field
    proxy around a null pointer. *)
Module scenario.

Definition registry_with_schema : ProxyManager :=
  (manageProxy sample.registry (Proxy_Schema sample.abc)).2.

Definition registry_with_null : ProxyManager :=
  (manageProxy sample.registry (Proxy_Field {| field := None |})).2.

End scenario.

(** * Properties *)

(** ** Machine integers *)

Lemma int32_range z : - 2 ^ 31 ≤ int32 z < 2 ^ 31.
Proof. unfold int32. pose proof (Z.mod_pos_bound (z + 2 ^ 31) (2 ^ 32)). lia. Qed.

Lemma int32_small z : - 2 ^ 31 ≤ z < 2 ^ 31 → int32 z = z.
Proof. intros Hz. unfold int32. rewrite Z.mod_small by lia. lia. Qed.

Lemma int32_idemp z : int32 (int32 z) = int32 z.
Proof. apply int32_small, int32_range. Qed.

Lemma size_t_small z : 0 ≤ z < 2 ^ 64 → size_t z = Z.to_N z.
Proof. intros Hz. unfold size_t. by rewrite Z.mod_small. Qed.

Lemma uint64_succ_ne n : uint64_succ n ≠ n.
Proof.
  unfold uint64_succ. intros H.
  destruct (decide (n + 1 < 2 ^ 64)%N) as [Hlt|Hge].
  - rewrite N.mod_small in H by done. lia.
  - pose proof (N.mod_upper_bound (n + 1) (2 ^ 64)) as Hb.
    destruct (decide (n + 1 = 2 ^ 64)%N) as [Heq|Hne].
    + rewrite Heq, N.Div0.mod_same in H. lia.
    + assert (n < 2 ^ 64)%N as Hn by (rewrite <- H; apply Hb; lia). lia.
Qed.

(** ** The Arrow schema *)

Lemma field_in_range s i :
  0 ≤ i < arrow.num_fields s → is_Some (arrow.field s i).
Proof.
  intros Hi. unfold arrow.field, arrow.num_fields in *.
  destruct (Z.ltb_spec i 0); [lia|].
  apply lookup_lt_is_Some. lia.
Qed.

Lemma field_Some s i f :
  arrow.field s i = Some f →
  0 ≤ i < arrow.num_fields s ∧ arrow.fields s !! Z.to_nat i = Some f.
Proof.
  unfold arrow.field, arrow.num_fields. intros Hf.
  destruct (Z.ltb_spec i 0); [done|].
  split; [|done]. apply lookup_lt_Some in Hf. lia.
Qed.

Lemma field_names_lookup s i f :
  arrow.fields s !! i = Some f → arrow.field_names s !! i = Some (arrow.name f).
Proof. intros Hf. unfold arrow.field_names. by rewrite list_lookup_fmap, Hf. Qed.

Lemma field_names_length s :
  Z.of_nat (length (arrow.field_names s)) = arrow.num_fields s.
Proof. unfold arrow.field_names, arrow.num_fields. by rewrite length_fmap. Qed.

(** ** Reading the inputs of a call *)

(** Case analysis on the outcome that a hypothesis or the goal matches
    on. *)
Ltac case_outcome :=
  match goal with
  | H : context [mbind _ ?m] |- _ =>
      let E := fresh "E" in
      destruct m eqn:E; cbn [mbind outcome_bind mret outcome_ret] in *; try discriminate H
  end.

Lemma int32_sub_in_range a b :
  - 2 ^ 31 ≤ a - b < 2 ^ 31 → int32_sub a b = Returns (a - b).
Proof.
  intros H. unfold int32_sub.
  destruct (Z.leb_spec (- 2 ^ 31) (a - b)); [|lia].
  destruct (Z.ltb_spec (a - b) (2 ^ 31)); [done|lia].
Qed.

Lemma int32_sub_overflow a b :
  ¬ (- 2 ^ 31 ≤ a - b < 2 ^ 31) → int32_sub a b = Undefined.
Proof.
  intros H. unfold int32_sub.
  destruct (Z.leb_spec (- 2 ^ 31) (a - b)); [|done].
  destruct (Z.ltb_spec (a - b) (2 ^ 31)); [lia|done].
Qed.

Lemma getFieldByIndex_eq self pm context i :
  input_Index context = Returns i →
  getFieldByIndex self pm context =
    (index ← int32_sub i 1;
     let n := arrow.num_fields (schema self) in
     if n =? 0 then Returns (pm, set_error context makeEmptySchemaError)
     else if (i <? 1) || (i >? n) then
       Returns (pm, set_error context
         {| id := error.ARROW_TABULAR_SCHEMA_INVALID_NUMERIC_FIELD_INDEX;
            message := "Invalid field index: " +:+ show_int i
              +:+ ". Field index must be between 1 and the number of fields ("
              +:+ show_int n +:+ ")." |})
     else
       match arrow.field (schema self) index with
       | None => Undefined
       | Some f =>
           Returns ((manageProxy pm (Proxy_Field {| field := Some f |})).2,
                    set_output context 0 (mda.createScalar_uint64 (current_proxy_id pm)))
       end).
Proof.
  unfold input_Index, getFieldByIndex. intros H.
  repeat case_outcome. by injection H as <-.
Qed.

Lemma input_Index_range context i :
  input_Index context = Returns i → - 2 ^ 31 ≤ i < 2 ^ 31.
Proof.
  unfold input_Index. intros H. repeat case_outcome.
  injection H as <-. apply int32_range.
Qed.

(** The three ways through [getFieldByIndex]: the overflow of
    [matlab_index - 1] at the least index, an error before the field is
    accessed, or the access, in range. *)
Lemma getFieldByIndex_cases self pm context i :
  input_Index context = Returns i →
  let n := arrow.num_fields (schema self) in
  (i = - 2 ^ 31 ∧ int32_sub i 1 = Undefined
   ∧ getFieldByIndex self pm context = Undefined)
  ∨ (- 2 ^ 31 < i ∧ ¬ (1 ≤ i ≤ n)
     ∧ getFieldByIndex self pm context =
         Returns (pm, set_error context
           (if n =? 0 then makeEmptySchemaError
            else {| id := error.ARROW_TABULAR_SCHEMA_INVALID_NUMERIC_FIELD_INDEX;
                    message := "Invalid field index: " +:+ show_int i
                      +:+ ". Field index must be between 1 and the number of fields ("
                      +:+ show_int n +:+ ")." |})))
  ∨ (1 ≤ i ≤ n ∧ int32_sub i 1 = Returns (i - 1)
     ∧ ∃ f, arrow.fields (schema self) !! Z.to_nat (i - 1) = Some f
            ∧ arrow.field (schema self) (i - 1) = Some f
            ∧ getFieldByIndex self pm context =
                Returns ((manageProxy pm (Proxy_Field {| field := Some f |})).2,
                         set_output context 0
                           (mda.TypedArray_uint64 [1; 1]%N [current_proxy_id pm]))).
Proof.
  intros Hin n.
  pose proof (input_Index_range _ _ Hin) as Hr.
  rewrite (getFieldByIndex_eq _ _ _ _ Hin). fold n.
  destruct (decide (i = - 2 ^ 31)) as [->|Hne].
  { left. by rewrite int32_sub_overflow by lia. }
  right. rewrite int32_sub_in_range by lia.
  cbn [mbind outcome_bind]. cbn zeta.
  destruct (Z.eqb_spec n 0) as [Hn|Hn].
  { left. split_and!; [lia|lia|done]. }
  destruct (Z.ltb_spec i 1) as [Hi|Hi].
  { left. split_and!; [lia|lia|done]. }
  destruct (Z.gtb_spec i n) as [Hi'|Hi'].
  { left. split_and!; [lia|lia|done]. }
  right. split_and!; [lia|lia|done|].
  destruct (field_in_range (schema self) (i - 1)) as [f Hf]; [fold n; lia|].
  rewrite Hf. destruct (field_Some _ _ _ Hf) as [_ Hl]. by exists f.
Qed.

Lemma input_Index_inputs i : input_Index (new_context (Index_inputs i)) = Returns (int32 i).
Proof. reflexivity. Qed.

Lemma input_Name_inputs name : input_Name (new_context (Name_inputs name)) = Returns name.
Proof. reflexivity. Qed.

Lemma input_FieldProxyIDs_inputs ids :
  input_FieldProxyIDs (FieldProxyIDs_inputs ids) = Returns ids.
Proof. reflexivity. Qed.

Section properties.

Variable UTF16StringToUTF8 : u16string → arrow.Result string.
Variable UTF8StringToUTF16 : string → arrow.Result u16string.
Variable ToString : arrow.Schema → string.

Abbreviation getFieldByName := (getFieldByName UTF16StringToUTF8).
Abbreviation getFieldNames := (getFieldNames UTF8StringToUTF16).
Abbreviation getFieldNames_loop := (getFieldNames_loop UTF8StringToUTF16).
Abbreviation toString := (toString UTF8StringToUTF16 ToString).
Abbreviation registered_methods :=
  (registered_methods UTF16StringToUTF8 UTF8StringToUTF16 ToString).

(** [names16] are the conversions of [names8], name by name. *)
Abbreviation converted names8 names16 :=
  (Forall2 (λ n8 n16, UTF8StringToUTF16 n8 = arrow.Value n16) names8 names16).

(** ** The conversion loop of [getFieldNames] *)

Lemma getFieldNames_loop_converted names8 names16 acc context pm rest :
  converted names8 names16 →
  getFieldNames_loop names8 acc context pm rest = rest (acc ++ names16).
Proof.
  intros H. revert acc.
  induction H as [|n8 n16 names8 names16 Hn _ IH]; intros acc; simpl.
  - by rewrite app_nil_r.
  - rewrite Hn. simpl. rewrite IH. by rewrite <- app_assoc.
Qed.

Lemma getFieldNames_loop_failed pre bad post names16 msg acc context pm rest :
  converted pre names16 →
  UTF8StringToUTF16 bad = arrow.Failed msg →
  getFieldNames_loop (pre ++ bad :: post) acc context pm rest =
    Returns (pm, set_error context
      {| id := error.UNICODE_CONVERSION_ERROR_ID; message := msg |}).
Proof.
  intros H Hbad. revert acc.
  induction H as [|n8 n16 names8 names16' Hn _ IH]; intros acc; simpl.
  - by rewrite Hbad.
  - rewrite Hn. simpl. apply IH.
Qed.

(** Every list of names either converts as a whole, or has a first name
    whose conversion fails. *)
Lemma converted_or_failed names8 :
  (∃ names16, converted names8 names16)
  ∨ (∃ pre bad post names16 msg,
        names8 = pre ++ bad :: post ∧ converted pre names16
        ∧ UTF8StringToUTF16 bad = arrow.Failed msg).
Proof.
  induction names8 as [|n8 names8 IH].
  - left. exists []. constructor.
  - destruct (UTF8StringToUTF16 n8) as [n16|msg] eqn:Hn.
    + destruct IH as [[names16 H]|(pre & bad & post & names16 & m & -> & H & Hbad)].
      * left. exists (n16 :: names16). by constructor.
      * right. exists (n8 :: pre), bad, post, (n16 :: names16), m.
        split_and!; [done| by constructor | done].
    + right. exists [], n8, names8, [], msg. split_and!; [done|constructor|done].
Qed.

Lemma converted_length names8 names16 :
  converted names8 names16 → length names16 = length names8.
Proof. intros H. symmetry. by eapply Forall2_length. Qed.

Lemma getFieldNames_converted self pm context names16 :
  converted (arrow.field_names (schema self)) names16 →
  getFieldNames self pm context =
    Returns (pm, set_output context 0
      (mda.StringArray [1%N; size_t (arrow.num_fields (schema self))] names16)).
Proof.
  intros H. unfold getFieldNames.
  by rewrite (getFieldNames_loop_converted _ _ _ _ _ _ H).
Qed.

Lemma getFieldNames_failed self pm context pre bad post names16 msg :
  arrow.field_names (schema self) = pre ++ bad :: post →
  converted pre names16 →
  UTF8StringToUTF16 bad = arrow.Failed msg →
  getFieldNames self pm context =
    Returns (pm, set_error context
      {| id := error.UNICODE_CONVERSION_ERROR_ID; message := msg |}).
Proof.
  intros Heq H Hbad. unfold getFieldNames. rewrite Heq.
  by eapply getFieldNames_loop_failed.
Qed.

(** What [getFieldNames] has put into the first output slot of a context
    that had none is the list of the converted names. *)
Lemma getFieldNames_output self pm context pm' context' dims names16 :
  outputs context !! 0%nat = None →
  getFieldNames self pm context = Returns (pm', context') →
  outputs context' !! 0%nat = Some (mda.StringArray dims names16) →
  converted (arrow.field_names (schema self)) names16.
Proof.
  intros Hfresh Hcall Hout.
  destruct (converted_or_failed (arrow.field_names (schema self)))
    as [[ns H]|(pre & bad & post & ns & m & Heq & H & Hbad)].
  - rewrite (getFieldNames_converted _ _ _ _ H) in Hcall.
    injection Hcall as <- <-. simpl in Hout.
    rewrite lookup_insert_eq in Hout. by injection Hout as <- <-.
  - rewrite (getFieldNames_failed _ _ _ _ _ _ _ _ Heq H Hbad) in Hcall.
    injection Hcall as <- <-. simpl in Hout. congruence.
Qed.

(** ** [getFieldByIndex] *)

(** C1: on a schema of [n >= 1] fields, [getFieldByIndex(i)] with
    [1 <= i <= n] succeeds: it reads the field at the 0-based offset
    [i - 1], registers a new field proxy for it and writes the identifier of
    the proxy, as a scalar unsigned 64-bit array, into the first output
    slot, recording no error; the name of that field is the [i]-th of the
    field names, and its conversion is the [i]-th element of what
    [getFieldNames] returns. *)
Theorem getFieldByIndex_in_range self pm context i :
  input_Index context = Returns i →
  1 ≤ i ≤ arrow.num_fields (schema self) →
  ∃ f pm' context',
    arrow.field (schema self) (i - 1) = Some f
    ∧ getFieldByIndex self pm context = Returns (pm', context')
    ∧ pm' = (manageProxy pm (Proxy_Field {| field := Some f |})).2
    ∧ proxy_map pm' !! current_proxy_id pm = Some (Proxy_Field {| field := Some f |})
    ∧ context' = set_output context 0
                   (mda.TypedArray_uint64 [1; 1]%N [current_proxy_id pm])
    ∧ outputs context' !! 0%nat
      = Some (mda.TypedArray_uint64 [1; 1]%N [current_proxy_id pm])
    ∧ error context' = error context
    ∧ arrow.field_names (schema self) !! Z.to_nat (i - 1) = Some (arrow.name f)
    ∧ ∀ pm0 context0 pm1 context1 dims names16,
        outputs context0 !! 0%nat = None →
        getFieldNames self pm0 context0 = Returns (pm1, context1) →
        outputs context1 !! 0%nat = Some (mda.StringArray dims names16) →
        ∃ n16, names16 !! Z.to_nat (i - 1) = Some n16
               ∧ UTF8StringToUTF16 (arrow.name f) = arrow.Value n16.
Proof.
  intros Hin Hi.
  destruct (getFieldByIndex_cases self pm context i Hin)
    as [(-> & _)|[(_ & Hout & _)|(_ & _ & f & Hl & Hf & Hcall)]]; [lia|done|].
  exists f. do 2 eexists.
  split_and!; [done|done|done| |done| |done|by apply field_names_lookup|]; simpl.
  - by rewrite lookup_insert_eq.
  - by rewrite lookup_insert_eq.
  - intros pm0 context0 pm1 context1 dims names16 Hfresh Hcall' Hout.
    pose proof (getFieldNames_output _ _ _ _ _ _ _ Hfresh Hcall' Hout) as Hc.
    apply field_names_lookup in Hl.
    destruct (Forall2_lookup_l _ _ _ _ _ Hc Hl) as (n16 & Hn & Hconv). eauto.
Qed.

(** C2: [getFieldByIndex(i)] with [i] outside of [1..n] (zero and negative
    indices included) is meant to fail with the invalid-index error, or,
    when the schema has no field, with the empty-schema error, whatever [i]
    is. It does so for every index but the least one, with the emptiness of
    the schema tested first, one error record, no output, and the registry
    as it was; the two identifiers differ. For the least index, [- 2 ^ 31],
    the subtraction [matlab_index - 1], which precedes both tests, overflows:
    the behaviour of the call is undefined. *)
Theorem getFieldByIndex_out_of_range self pm context i :
  input_Index context = Returns i →
  ¬ (1 ≤ i ≤ arrow.num_fields (schema self)) →
  (i = - 2 ^ 31 → getFieldByIndex self pm context = Undefined)
  ∧ (- 2 ^ 31 < i →
     ∃ context' e,
       getFieldByIndex self pm context = Returns (pm, context')
       ∧ error context' = Some e
       ∧ outputs context' = outputs context
       ∧ (arrow.num_fields (schema self) = 0 → e = makeEmptySchemaError)
       ∧ id e = (if decide (arrow.num_fields (schema self) = 0)
                 then error.ARROW_TABULAR_SCHEMA_NUMERIC_FIELD_INDEX_WITH_EMPTY_SCHEMA
                 else error.ARROW_TABULAR_SCHEMA_INVALID_NUMERIC_FIELD_INDEX)
       ∧ context' = set_error context e)
  ∧ error.ARROW_TABULAR_SCHEMA_NUMERIC_FIELD_INDEX_WITH_EMPTY_SCHEMA
    ≠ error.ARROW_TABULAR_SCHEMA_INVALID_NUMERIC_FIELD_INDEX.
Proof.
  intros Hin Hi.
  destruct (getFieldByIndex_cases self pm context i Hin)
    as [(-> & _ & Hcall)|[(Hlt & _ & Hcall)|(Hin' & _)]]; [| |done].
  - split_and!; [done|lia|done].
  - split_and!; [lia| |done]. intros _. rewrite Hcall. do 2 eexists.
    split_and!; [done|done|done| | |done].
    + intros Hn. by destruct (Z.eqb_spec (arrow.num_fields (schema self)) 0).
    + destruct (Z.eqb_spec (arrow.num_fields (schema self)) 0);
        [by rewrite decide_True|by rewrite decide_False].
Qed.

(** C3: on a schema of [n >= 1] fields, the message of the error for an
    index [i] with [i < 1] or [i > n] is meant to read
    [Invalid field index: <i>. Field index must be between 1 and the number
    of fields (<n>).], with the 1-based index as it was received and the
    number of fields in decimal. The error record holds this message for
    every such index but the least one, [- 2 ^ 31], for which
    [matlab_index - 1] has overflowed before the message is made: the
    behaviour of the call is undefined. *)
Theorem getFieldByIndex_invalid_index_message self pm context i :
  input_Index context = Returns i →
  1 ≤ arrow.num_fields (schema self) →
  i < 1 ∨ i > arrow.num_fields (schema self) →
  (i = - 2 ^ 31 → getFieldByIndex self pm context = Undefined)
  ∧ (- 2 ^ 31 < i →
     ∃ context' e,
       getFieldByIndex self pm context = Returns (pm, context')
       ∧ error context' = Some e
       ∧ e = {| id := error.ARROW_TABULAR_SCHEMA_INVALID_NUMERIC_FIELD_INDEX;
                message :=
                  "Invalid field index: " +:+ show_int i
                  +:+ ". Field index must be between 1 and the number of fields ("
                  +:+ show_int (arrow.num_fields (schema self)) +:+ ")." |}
       ∧ outputs context' = outputs context
       ∧ context' = set_error context e).
Proof.
  intros Hin Hn Hi.
  destruct (getFieldByIndex_cases self pm context i Hin)
    as [(-> & _ & Hcall)|[(Hlt & _ & Hcall)|(Hin' & _)]]; [| |lia].
  - split; [done|lia].
  - split; [lia|]. intros _. rewrite Hcall. do 2 eexists.
    split_and!; [done|done| |done|done].
    destruct (Z.eqb_spec (arrow.num_fields (schema self)) 0); [lia|done].
Qed.

(** C9: in [getFieldByIndex], the unchecked access [schema->field(index)]
    is reached only with [1 <= matlab_index <= num_fields]: then the 0-based
    offset [index = matlab_index - 1] is computed without overflow, lies in
    [0 .. n - 1] and denotes a field of the schema, and no error is
    recorded. With an index outside of that range the call ends before the
    access: with an error, the registry untouched, or, for the least index
    [- 2 ^ 31], in the overflow of [matlab_index - 1] before the tests. The
    access itself is never out of range: the behaviour of a call is
    undefined for the least index only. *)
Theorem getFieldByIndex_access_in_range self pm context i :
  input_Index context = Returns i →
  let n := arrow.num_fields (schema self) in
  (getFieldByIndex self pm context = Undefined ↔ i = - 2 ^ 31)
  ∧ ((i = - 2 ^ 31 ∧ int32_sub i 1 = Undefined)
     ∨ (- 2 ^ 31 < i ∧ ¬ (1 ≤ i ≤ n)
        ∧ ∃ context' e, getFieldByIndex self pm context = Returns (pm, context')
                        ∧ error context' = Some e
                        ∧ outputs context' = outputs context
                        ∧ context' = set_error context e)
     ∨ (1 ≤ i ≤ n
        ∧ ∃ index, int32_sub i 1 = Returns index
            ∧ index = i - 1 ∧ 0 ≤ index ≤ n - 1
            ∧ ∃ f pm' context',
                arrow.fields (schema self) !! Z.to_nat index = Some f
                ∧ arrow.field (schema self) index = Some f
                ∧ getFieldByIndex self pm context = Returns (pm', context')
                ∧ proxy_map pm' !! current_proxy_id pm
                  = Some (Proxy_Field {| field := Some f |})
                ∧ outputs context' !! 0%nat
                  = Some (mda.TypedArray_uint64 [1; 1]%N [current_proxy_id pm])
                ∧ error context' = error context
                ∧ pm' = (manageProxy pm (Proxy_Field {| field := Some f |})).2
                ∧ context' = set_output context 0
                    (mda.createScalar_uint64 (current_proxy_id pm)))).
Proof.
  intros Hin. cbn zeta.
  destruct (getFieldByIndex_cases self pm context i Hin)
    as [(-> & Hsub & Hcall)|[(Hlt & Hout & Hcall)|(Hi & Hsub & f & Hl & Hf & Hcall)]].
  - split; [done|]. by left.
  - split; [rewrite Hcall; split; [done|lia]|].
    right. left. split_and!; [done|done|]. by do 2 eexists.
  - split; [rewrite Hcall; split; [done|lia]|].
    right. right. split; [done|]. exists (i - 1).
    split_and!; [done|done|lia|lia|]. exists f. do 2 eexists.
    split_and!; [done|done|done| | |done|done|done]; simpl;
      by rewrite lookup_insert_eq.
Qed.

(** ** The Arrow schema, by name *)

Lemma occurrences_field_names s n :
  occurrences n (arrow.field_names s)
  = length (filter (λ f, arrow.name f = n) (arrow.fields s)).
Proof.
  unfold occurrences, arrow.field_names.
  induction (arrow.fields s) as [|f fs IH]; [done|].
  rewrite fmap_cons, !filter_cons.
  destruct (decide (arrow.name f = n)); simpl; by rewrite IH.
Qed.

Lemma GetFieldByName_Some s n f :
  arrow.GetFieldByName s n = Some f →
  f ∈ arrow.fields s ∧ arrow.name f = n ∧ occurrences n (arrow.field_names s) = 1%nat.
Proof.
  unfold arrow.GetFieldByName. rewrite occurrences_field_names.
  destruct (filter _ (arrow.fields s)) as [|f' [|f'' l]] eqn:E; try done.
  intros [= ->].
  assert (f ∈ filter (λ f, arrow.name f = n) (arrow.fields s)) as Hf
    by (rewrite E; apply list_elem_of_here).
  apply list_elem_of_filter in Hf as [Hn Hf]. done.
Qed.

Lemma GetFieldByName_None s n :
  arrow.GetFieldByName s n = None ↔ occurrences n (arrow.field_names s) ≠ 1%nat.
Proof.
  unfold arrow.GetFieldByName. rewrite occurrences_field_names.
  destruct (filter _ (arrow.fields s)) as [|f' [|f'' l]]; simpl.
  - split; [lia|done].
  - split; [done|lia].
  - split; [lia|done].
Qed.

Lemma GetFieldByName_unique s n :
  occurrences n (arrow.field_names s) = 1%nat →
  ∃ f, arrow.GetFieldByName s n = Some f.
Proof.
  intros H. destruct (arrow.GetFieldByName s n) as [f|] eqn:E; [by exists f|].
  by apply GetFieldByName_None in E.
Qed.

(** ** [getFieldByName] *)

Lemma getFieldByName_eq self pm context name16 :
  input_Name context = Returns name16 →
  getFieldByName self pm context =
    match UTF16StringToUTF8 name16 with
    | arrow.Failed msg =>
        Returns (pm, set_error context
          {| id := error.UNICODE_CONVERSION_ERROR_ID; message := msg |})
    | arrow.Value name8 =>
        match arrow.GetFieldByName (schema self) name8 with
        | None =>
            Returns (pm, set_error context
              {| id := error.ARROW_TABULAR_SCHEMA_AMBIGUOUS_FIELD_NAME;
                 message := "Field named '" +:+ name8
                            +:+ "' not found or not unique in the schema." |})
        | Some f =>
            Returns ((manageProxy pm (Proxy_Field {| field := Some f |})).2,
                     set_output context 0
                       (mda.createScalar_uint64 (current_proxy_id pm)))
        end
    end.
Proof.
  unfold input_Name, getFieldByName. intros H.
  repeat case_outcome. rewrite H.
  cbn [mbind outcome_bind mret outcome_ret].
  unfold MATLAB_ASSIGN_OR_ERROR_WITH_CONTEXT, MATLAB_ERROR_IF_NOT_OK_WITH_CONTEXT.
  destruct (UTF16StringToUTF8 name16) as [name8|msg]; [|done].
  simpl. by destruct (arrow.GetFieldByName (schema self) name8).
Qed.

Lemma manageProxy_ne pm proxy : (manageProxy pm proxy).2 ≠ pm.
Proof.
  intros H. apply (f_equal current_proxy_id) in H. simpl in H.
  by apply uint64_succ_ne in H.
Qed.

(** When the two conversions are inverse to each other on the names at
    hand, a UTF-16 name occurs among the converted names as often as its
    UTF-8 form occurs among the names of the schema. *)
Lemma occurrences_converted names8 names16 name8 name16 :
  converted names8 names16 →
  Forall (λ n8, ∀ n16, UTF8StringToUTF16 n8 = arrow.Value n16 →
                       UTF16StringToUTF8 n16 = arrow.Value n8) names8 →
  UTF16StringToUTF8 name16 = arrow.Value name8 →
  UTF8StringToUTF16 name8 = arrow.Value name16 →
  occurrences name16 names16 = occurrences name8 names8.
Proof.
  intros H Hback H16 H8. unfold occurrences.
  induction H as [|n8 n16 names8 names16 Hn _ IH]; [done|].
  apply Forall_cons in Hback as [Hb Hback].
  rewrite !filter_cons.
  destruct (decide (n16 = name16)) as [->|Hne], (decide (n8 = name8)) as [->|Hne'];
    simpl; rewrite ?IH by done; try done.
  - apply Hb in Hn. congruence.
  - congruence.
Qed.

(** The two ways through [getFieldByName] for a name that converts. *)
Lemma getFieldByName_cases self pm context name16 name8 :
  input_Name context = Returns name16 →
  UTF16StringToUTF8 name16 = arrow.Value name8 →
  (occurrences name8 (arrow.field_names (schema self)) = 1%nat
   ∧ ∃ f, getFieldByName self pm context =
            Returns ((manageProxy pm (Proxy_Field {| field := Some f |})).2,
                     set_output context 0
                       (mda.TypedArray_uint64 [1; 1]%N [current_proxy_id pm]))
          ∧ f ∈ arrow.fields (schema self) ∧ arrow.name f = name8)
  ∨ (occurrences name8 (arrow.field_names (schema self)) ≠ 1%nat
     ∧ getFieldByName self pm context =
         Returns (pm, set_error context
           {| id := error.ARROW_TABULAR_SCHEMA_AMBIGUOUS_FIELD_NAME;
              message := "Field named '" +:+ name8
                         +:+ "' not found or not unique in the schema." |})).
Proof.
  intros Hin Hconv. rewrite (getFieldByName_eq _ _ _ _ Hin), Hconv.
  destruct (arrow.GetFieldByName (schema self) name8) as [f|] eqn:E.
  - left. apply GetFieldByName_Some in E as (? & ? & ?). split; [done|by exists f].
  - right. by apply GetFieldByName_None in E.
Qed.

(** A successful and a failed call differ. *)
Lemma getFieldByName_succeeds_iff self pm context name16 name8 :
  input_Name context = Returns name16 →
  UTF16StringToUTF8 name16 = arrow.Value name8 →
  (∃ f, getFieldByName self pm context =
          Returns ((manageProxy pm (Proxy_Field {| field := Some f |})).2,
                   set_output context 0
                     (mda.TypedArray_uint64 [1; 1]%N [current_proxy_id pm]))
        ∧ f ∈ arrow.fields (schema self) ∧ arrow.name f = name8)
  ↔ occurrences name8 (arrow.field_names (schema self)) = 1%nat.
Proof.
  intros Hin Hconv.
  destruct (getFieldByName_cases self pm context _ _ Hin Hconv)
    as [[Hone Hcall]|[Hne Hcall]]; [done|].
  split; [|done]. intros (f & Hcall' & _). rewrite Hcall in Hcall'.
  injection Hcall' as Hpm _. symmetry in Hpm. by apply manageProxy_ne in Hpm.
Qed.


(** ** The registry *)

Ltac uint64_lia :=
  unfold registry_ok, uint64_succ in *;
  change (2 ^ 64)%N with 18446744073709551616%N in *; lia.

Lemma registry_ok_fresh k pm :
  registry_ok k pm → proxy_map pm !! current_proxy_id pm = None.
Proof.
  intros [Hall _].
  destruct (proxy_map pm !! current_proxy_id pm) as [p|] eqn:E; [|done].
  apply Hall in E. simpl in E. lia.
Qed.

Lemma registry_ok_manageProxy k pm proxy :
  registry_ok (N.succ k) pm → registry_ok k (manageProxy pm proxy).2.
Proof.
  intros [Hall Hk]. unfold registry_ok. simpl.
  assert (uint64_succ (current_proxy_id pm) = current_proxy_id pm + 1)%N as ->.
  { unfold uint64_succ. apply N.mod_small. uint64_lia. }
  split; [|uint64_lia].
  apply map_Forall_insert_2; [lia|].
  intros i p Hi. apply Hall in Hi. simpl in Hi. lia.
Qed.

Lemma registry_ok_weaken k k' pm : (k' ≤ k)%N → registry_ok k pm → registry_ok k' pm.
Proof. intros Hk [Hall Hc]. split; [done|uint64_lia]. Qed.

Lemma registry_ok_empty : registry_ok (2 ^ 64 - 1) empty_registry.
Proof. split; [apply map_Forall_empty|done]. Qed.

(** ** Errors and the registry *)

(** C10: a call of [getFieldByIndex] or of [getFieldByName] that ends with
    an error (empty schema, index out of range, failed conversion, unknown
    or ambiguous name) has registered nothing: it leaves the registry as it
    was, and has written no output. A call that ends without an error has
    registered exactly one proxy, a field proxy. *)
Theorem failed_lookup_leaves_registry self (m : method) pm context pm' context' :
  m = getFieldByIndex self ∨ m = getFieldByName self →
  error context = None →
  m pm context = Returns (pm', context') →
  (is_Some (error context') →
     pm' = pm ∧ outputs context' = outputs context
     ∧ ∃ e, error context' = Some e
          ∧ id e ∈ [error.ARROW_TABULAR_SCHEMA_NUMERIC_FIELD_INDEX_WITH_EMPTY_SCHEMA;
                    error.ARROW_TABULAR_SCHEMA_INVALID_NUMERIC_FIELD_INDEX;
                    error.UNICODE_CONVERSION_ERROR_ID;
                    error.ARROW_TABULAR_SCHEMA_AMBIGUOUS_FIELD_NAME])
  ∧ (error context' = None →
     ∃ f, pm' = (manageProxy pm (Proxy_Field {| field := Some f |})).2).
Proof using UTF16StringToUTF8.
  clear UTF8StringToUTF16 ToString.
  intros [->| ->] Hfresh Hcall.
  - assert (∃ i, input_Index context = Returns i) as [i Hin].
    { unfold getFieldByIndex, input_Index in *. repeat case_outcome. by eexists. }
    destruct (getFieldByIndex_cases self pm context i Hin)
      as [(_ & _ & Hundef)|[(_ & _ & He)|(_ & _ & f & _ & _ & Hf)]].
    + by rewrite Hundef in Hcall.
    + rewrite He in Hcall. injection Hcall as <- <-. simpl.
      split; [|done]. intros _. split_and!; [done..|].
      eexists. split; [done|]. destruct (_ =? 0); set_solver.
    + rewrite Hf in Hcall. injection Hcall as <- <-. simpl. rewrite Hfresh.
      split; [by intros []|]. intros _. by exists f.
  - assert (∃ n, input_Name context = Returns n) as [n Hin].
    { unfold getFieldByName, input_Name in *. repeat case_outcome. by eexists. }
    rewrite (getFieldByName_eq _ _ _ _ Hin) in Hcall.
    destruct (UTF16StringToUTF8 n) as [name8|msg].
    + destruct (arrow.GetFieldByName (schema self) name8) as [f|].
      * injection Hcall as <- <-. simpl. rewrite Hfresh.
        split; [by intros []|]. intros _. by exists f.
      * injection Hcall as <- <-. simpl. split; [|done].
        intros _. split_and!; [done..|]. eexists. split; [done|]. set_solver.
    + injection Hcall as <- <-. simpl. split; [|done].
      intros _. split_and!; [done..|]. eexists. split; [done|]. set_solver.
Qed.

Lemma input_Index_inputs_eq context context2 :
  inputs context2 = inputs context → input_Index context2 = input_Index context.
Proof. unfold input_Index. by intros ->. Qed.

Lemma input_Name_inputs_eq context context2 :
  inputs context2 = inputs context → input_Name context2 = input_Name context.
Proof. unfold input_Name. by intros ->. Qed.

(** A lookup that returns without an error has registered a proxy of a
    field and written its identifier, and does so again on every registry
    and context with the same inputs. *)
Lemma lookup_succeeds self (m : method) pm context pm1 context1 :
  m = getFieldByIndex self ∨ m = getFieldByName self →
  error context = None →
  m pm context = Returns (pm1, context1) →
  error context1 = None →
  ∃ f, pm1 = (manageProxy pm (Proxy_Field {| field := Some f |})).2
       ∧ context1 = set_output context 0
           (mda.TypedArray_uint64 [1; 1]%N [current_proxy_id pm])
       ∧ ∀ pm' context2, inputs context2 = inputs context →
           m pm' context2 =
             Returns ((manageProxy pm' (Proxy_Field {| field := Some f |})).2,
                      set_output context2 0
                        (mda.TypedArray_uint64 [1; 1]%N [current_proxy_id pm'])).
Proof using UTF16StringToUTF8.
  clear UTF8StringToUTF16 ToString.
  intros Hm Hfresh Hcall Hok. destruct Hm as [->| ->].
  - assert (∃ i, input_Index context = Returns i) as [i Hin].
    { unfold getFieldByIndex, input_Index in *. repeat case_outcome. by eexists. }
    destruct (getFieldByIndex_cases self pm context i Hin)
      as [(_ & _ & Hundef)|[(_ & _ & He)|(Hi & _ & f & Hl & _ & Hf)]].
    + by rewrite Hundef in Hcall.
    + rewrite He in Hcall. by injection Hcall as <- <-.
    + rewrite Hf in Hcall. injection Hcall as <- <-. exists f.
      split_and!; [done..|]. intros pm' context2 Hinputs.
      rewrite <- (input_Index_inputs_eq _ _ Hinputs) in Hin.
      destruct (getFieldByIndex_cases self pm' context2 i Hin)
        as [(-> & _)|[(_ & ? & _)|(_ & _ & f' & Hl' & Hf' & Hcall')]];
        [lia|done|].
      rewrite Hcall'. rewrite Hl in Hl'. by injection Hl' as <-.
  - assert (∃ n, input_Name context = Returns n) as [n Hin].
    { unfold getFieldByName, input_Name in *. repeat case_outcome. by eexists. }
    rewrite (getFieldByName_eq _ _ _ _ Hin) in Hcall.
    destruct (UTF16StringToUTF8 n) as [name8|msg] eqn:Hconv;
      [|by injection Hcall as <- <-].
    destruct (arrow.GetFieldByName (schema self) name8) as [f|] eqn:Hf;
      [|by injection Hcall as <- <-].
    injection Hcall as <- <-. exists f. split_and!; [done..|].
    intros pm' context2 Hinputs.
    rewrite <- (input_Name_inputs_eq _ _ Hinputs) in Hin.
    by rewrite (getFieldByName_eq _ _ _ _ Hin), Hconv, Hf.
Qed.

(** C8: a successful call of [getFieldByIndex] or of [getFieldByName]
    registers a field proxy under the identifier that it returns in the
    first output slot, and the identifier was not in use (in a registry
    whose counter has not wrapped around). A second call with the same
    arguments succeeds as well and returns, in its first output slot,
    another identifier; after it the registry holds two entries, one under
    each identifier, for the same field: nothing is shared or reused. *)
Theorem lookups_register_fresh_proxies self (m : method) pm context pm1 context1 :
  m = getFieldByIndex self ∨ m = getFieldByName self →
  error context = None →
  m pm context = Returns (pm1, context1) →
  error context1 = None →
  ∃ f id1 id2 pm2,
    context1 = set_output context 0 (mda.TypedArray_uint64 [1; 1]%N [id1])
    ∧ outputs context1 !! 0%nat = Some (mda.TypedArray_uint64 [1; 1]%N [id1])
    ∧ pm1 = (manageProxy pm (Proxy_Field {| field := Some f |})).2
    ∧ proxy_map pm1 !! id1 = Some (Proxy_Field {| field := Some f |})
    ∧ (registry_ok 0 pm → proxy_map pm !! id1 = None)
    ∧ (∀ context2, inputs context2 = inputs context →
         ∃ context2',
           m pm1 context2 = Returns (pm2, context2')
           ∧ context2' = set_output context2 0
                           (mda.TypedArray_uint64 [1; 1]%N [id2])
           ∧ outputs context2' !! 0%nat
             = Some (mda.TypedArray_uint64 [1; 1]%N [id2])
           ∧ error context2' = error context2)
    ∧ id2 ≠ id1
    ∧ proxy_map pm2 !! id1 = Some (Proxy_Field {| field := Some f |})
    ∧ proxy_map pm2 !! id2 = Some (Proxy_Field {| field := Some f |})
    ∧ (registry_ok 1 pm → proxy_map pm1 !! id2 = None)
    ∧ (∀ pm' context2,
         registry_ok 0 pm' → is_Some (proxy_map pm' !! id1) →
         inputs context2 = inputs context →
         ∃ id2' pm2' context2',
           m pm' context2 = Returns (pm2', context2')
           ∧ context2' = set_output context2 0
                           (mda.TypedArray_uint64 [1; 1]%N [id2'])
           ∧ outputs context2' !! 0%nat
             = Some (mda.TypedArray_uint64 [1; 1]%N [id2'])
           ∧ id2' ≠ id1 ∧ proxy_map pm' !! id2' = None
           ∧ proxy_map pm2' !! id2' = Some (Proxy_Field {| field := Some f |})
           ∧ proxy_map pm2' !! id1 = proxy_map pm' !! id1).
Proof.
  intros Hm Hfresh Hcall Hok.
  destruct (lookup_succeeds _ _ _ _ _ _ Hm Hfresh Hcall Hok) as (f & -> & -> & Hagain).
  exists f, (current_proxy_id pm), (uint64_succ (current_proxy_id pm)).
  eexists. split_and!; [done| |done| | | | | | | |]; simpl.
  - by rewrite lookup_insert_eq.
  - by rewrite lookup_insert_eq.
  - apply registry_ok_fresh.
  - intros context2 Hinputs. eexists.
    split_and!; [by apply Hagain|done| |done]. simpl. by rewrite lookup_insert_eq.
  - apply uint64_succ_ne.
  - simpl. rewrite lookup_insert_ne by apply uint64_succ_ne.
    by rewrite lookup_insert_eq.
  - simpl. by rewrite lookup_insert_eq.
  - intros Hreg.
    apply (registry_ok_fresh 0 (manageProxy pm (Proxy_Field {| field := Some f |})).2).
    by apply registry_ok_manageProxy.
  - intros pm' context2 Hreg Hheld Hinputs.
    pose proof (registry_ok_fresh _ _ Hreg) as Hnew.
    assert (current_proxy_id pm' ≠ current_proxy_id pm) as Hne.
    { intros Heq. rewrite Heq, <- not_eq_None_Some in *. done. }
    exists (current_proxy_id pm'). do 2 eexists.
    split_and!; [by apply Hagain|done| |done|done| |]; simpl.
    + by rewrite lookup_insert_eq.
    + by rewrite lookup_insert_eq.
    + by rewrite lookup_insert_ne.
Qed.

(** ** [getFieldNames] *)

(** C6: [getFieldNames] converts the UTF-8 field names to UTF-16 in their
    order. When every name converts, it writes the converted names, in that
    order, as a string array of dimensions 1 x n into the first output
    slot and records no error, where n is the number that [getNumFields]
    writes into its first output slot (a 1 x 0 array for the schema without
    fields). When the conversion of a name fails, it records
    [UNICODE_CONVERSION_ERROR_ID] with the message of the first failure and
    writes no output. *)
Theorem getFieldNames_converts_in_order self pm context :
  let names8 := arrow.field_names (schema self) in
  let n := arrow.num_fields (schema self) in
  (∀ names16, converted names8 names16 →
     ∃ context' context'',
       getFieldNames self pm context = Returns (pm, context')
       ∧ context' = set_output context 0 (mda.StringArray [1%N; size_t n] names16)
       ∧ outputs context' !! 0%nat
         = Some (mda.StringArray [1%N; size_t n] names16)
       ∧ error context' = error context
       ∧ getNumFields self pm context = Returns (pm, context'')
       ∧ outputs context'' !! 0%nat
         = Some (mda.TypedArray_int32 [1; 1]%N [Z.of_nat (length names16)])
       ∧ (n < 2 ^ 64 → size_t n = N.of_nat (length names16))
       ∧ context'' = set_output context 0
           (mda.TypedArray_int32 [1; 1]%N [Z.of_nat (length names16)]))
  ∧ (∀ pre bad post names16 msg,
       names8 = pre ++ bad :: post → converted pre names16 →
       UTF8StringToUTF16 bad = arrow.Failed msg →
       ∃ context',
         getFieldNames self pm context = Returns (pm, context')
         ∧ error context' =
             Some {| id := error.UNICODE_CONVERSION_ERROR_ID; message := msg |}
         ∧ outputs context' = outputs context
         ∧ context' = set_error context
             {| id := error.UNICODE_CONVERSION_ERROR_ID; message := msg |})
  ∧ (∀ bad msg, bad ∈ names8 → UTF8StringToUTF16 bad = arrow.Failed msg →
       ∃ context' msg',
         getFieldNames self pm context = Returns (pm, context')
         ∧ error context' =
             Some {| id := error.UNICODE_CONVERSION_ERROR_ID; message := msg' |}
         ∧ outputs context' = outputs context
         ∧ context' = set_error context
             {| id := error.UNICODE_CONVERSION_ERROR_ID; message := msg' |})
  ∧ ((∃ names16, converted names8 names16)
     ∨ (∃ bad msg, bad ∈ names8 ∧ UTF8StringToUTF16 bad = arrow.Failed msg))
  ∧ (n = 0 →
       ∃ context',
         getFieldNames self pm context = Returns (pm, context')
         ∧ outputs context' !! 0%nat = Some (mda.StringArray [1; 0]%N [])
         ∧ error context' = error context
         ∧ context' = set_output context 0 (mda.StringArray [1; 0]%N [])).
Proof.
  intros names8 n.
  assert (∀ pre bad post names16 msg,
       names8 = pre ++ bad :: post → converted pre names16 →
       UTF8StringToUTF16 bad = arrow.Failed msg →
       ∃ context',
         getFieldNames self pm context = Returns (pm, context')
         ∧ error context' =
             Some {| id := error.UNICODE_CONVERSION_ERROR_ID; message := msg |}
         ∧ outputs context' = outputs context
         ∧ context' = set_error context
             {| id := error.UNICODE_CONVERSION_ERROR_ID; message := msg |}) as Hfail.
  { intros pre bad post names16 msg Heq H Hbad.
    rewrite (getFieldNames_failed _ _ _ _ _ _ _ _ Heq H Hbad). by eexists. }
  split_and!; [|done| | |].
  - intros names16 H. rewrite (getFieldNames_converted _ _ _ _ H).
    pose proof (converted_length _ _ H) as Hlen.
    pose proof (field_names_length (schema self)) as Hn. fold names8 n in Hn.
    do 2 eexists. split_and!; [done|done| |done|done| | |].
    + simpl. by rewrite lookup_insert_eq.
    + simpl. rewrite lookup_insert_eq. unfold mda.createScalar_int32.
      fold n. by rewrite Hlen, Hn.
    + intros Hlt. rewrite size_t_small by lia. rewrite Hlen. lia.
    + unfold mda.createScalar_int32. fold n. by rewrite Hlen, Hn.
  - intros bad msg Hin Hbad.
    destruct (converted_or_failed names8)
      as [[ns H]|(pre & bad' & post & ns & m & Heq & H & Hbad')].
    + apply list_elem_of_lookup in Hin as [k Hk].
      destruct (Forall2_lookup_l _ _ _ _ _ H Hk) as (n16 & _ & Hconv). congruence.
    + destruct (Hfail _ _ _ _ _ Heq H Hbad') as (context' & ? & ? & ? & ?).
      by exists context', m.
  - destruct (converted_or_failed names8)
      as [[ns H]|(pre & bad' & post & ns & m & Heq & H & Hbad')].
    + left. by exists ns.
    + right. exists bad', m. split; [|done]. rewrite Heq. set_solver.
  - intros Hn. assert (names8 = []) as Hnil.
    { apply length_zero_iff_nil.
      pose proof (field_names_length (schema self)). fold names8 n in H. lia. }
    unfold getFieldNames. fold names8 n. rewrite Hnil, Hn. simpl.
    eexists. split_and!; [done| |done|done]. simpl. by rewrite lookup_insert_eq.
Qed.

(** ** Every method sets an output or an error *)

(** C7: a call of one of the five registered methods, on a context that has
    neither an output nor an error yet, is meant to return with exactly one
    of the first output slot and the error record set. Every call does so
    ([getFieldByIndex] and [getFieldByName] being called with their
    argument): either the output is written and no error is recorded, or an
    error is recorded and the outputs are as they were, none written. The
    one exception is [getFieldByIndex] with the least index, [- 2 ^ 31],
    for which [matlab_index - 1] overflows: the behaviour of that call is
    undefined. *)
Theorem exactly_one_of_output_or_error self name (m : method) pm context :
  (name, m) ∈ registered_methods self →
  outputs context !! 0%nat = None →
  error context = None →
  (name = "getFieldByIndex" → ∃ i, input_Index context = Returns i) →
  (name = "getFieldByName" → ∃ n, input_Name context = Returns n) →
  (name = "getFieldByIndex" → input_Index context = Returns (- 2 ^ 31) →
     m pm context = Undefined)
  ∧ (¬ (name = "getFieldByIndex" ∧ input_Index context = Returns (- 2 ^ 31)) →
     ∃ pm' context',
       m pm context = Returns (pm', context')
       ∧ ((is_Some (outputs context' !! 0%nat) ∧ error context' = None)
          ∨ (is_Some (error context') ∧ outputs context' = outputs context
             ∧ outputs context' !! 0%nat = None))).
Proof.
  intros Hm Hout Herr Hindex Hname.
  assert (∀ a, is_Some (outputs (set_output context 0 a) !! 0%nat)
               ∧ error (set_output context 0 a) = None) as Hset.
  { intros a. simpl. by rewrite lookup_insert_eq. }
  assert (∀ e, is_Some (error (set_error context e))
               ∧ outputs (set_error context e) = outputs context
               ∧ outputs (set_error context e) !! 0%nat = None) as Hfail.
  { intros e. simpl. split_and!; [by eexists|done|done]. }
  unfold registered_methods in Hm.
  repeat (apply elem_of_cons in Hm as [[= -> ->]|Hm]).
  - destruct Hindex as [i Hin]; [done|].
    destruct (getFieldByIndex_cases self pm context i Hin)
      as [(-> & _ & Hundef)|[(Hlt & _ & He)|(Hi & _ & f & _ & _ & Hf)]].
    + split; [done|]. intros []. done.
    + split; [intros _ Hmin; rewrite Hin in Hmin; injection Hmin as ->; lia|].
      intros _. rewrite He. do 2 eexists. split; [done|]. right. apply Hfail.
    + split; [intros _ Hmin; rewrite Hin in Hmin; injection Hmin as ->; lia|].
      intros _. rewrite Hf. do 2 eexists. split; [done|]. left. by apply Hset.
  - split; [done|]. intros _.
    destruct Hname as [n Hin]; [done|].
    rewrite (getFieldByName_eq _ _ _ _ Hin).
    destruct (UTF16StringToUTF8 n) as [name8|msg].
    + destruct (arrow.GetFieldByName (schema self) name8) as [f|].
      * do 2 eexists. split; [done|]. left. by apply Hset.
      * do 2 eexists. split; [done|]. right. apply Hfail.
    + do 2 eexists. split; [done|]. right. apply Hfail.
  - split; [done|]. intros _.
    unfold getNumFields. do 2 eexists. split; [done|]. left. by apply Hset.
  - split; [done|]. intros _.
    destruct (converted_or_failed (arrow.field_names (schema self)))
      as [[ns H]|(pre & bad & post & ns & msg & Heq & H & Hbad)].
    + rewrite (getFieldNames_converted _ _ _ _ H).
      do 2 eexists. split; [done|]. left. by apply Hset.
    + rewrite (getFieldNames_failed _ _ _ _ _ _ _ _ Heq H Hbad).
      do 2 eexists. split; [done|]. right. apply Hfail.
  - split; [done|]. intros _.
    unfold toString, MATLAB_ASSIGN_OR_ERROR_WITH_CONTEXT.
    destruct (UTF8StringToUTF16 (ToString (schema self))) as [str|msg].
    + do 2 eexists. split; [done|]. left. by apply Hset.
    + do 2 eexists. split; [done|]. right. apply Hfail.
  - by apply elem_of_nil in Hm.
Qed.

End properties.

(** ** The factory *)

Lemma make_fields_held pm ids fs acc :
  Forall2 (holds_field pm) ids fs →
  make_fields pm ids acc = Returns (acc ++ fs).
Proof.
  intros H. revert acc.
  induction H as [|id f ids fs Hid _ IH]; intros acc; simpl.
  - by rewrite app_nil_r.
  - unfold getProxy. rewrite Hid. simpl. rewrite IH. by rewrite <- app_assoc.
Qed.

Lemma make_fields_Returns pm ids acc r :
  make_fields pm ids acc = Returns r →
  ∃ fs, r = acc ++ fs ∧ Forall2 (holds_field pm) ids fs.
Proof.
  revert acc. induction ids as [|id ids IH]; intros acc; simpl.
  - intros [= <-]. exists []. by rewrite app_nil_r.
  - unfold getProxy, holds_field.
    destruct (proxy_map pm !! id) as [[[f]|p]|] eqn:Hid; simpl; try done.
    intros (fs & -> & H)%IH. exists (f :: fs).
    rewrite <- app_assoc. split; [done|]. by constructor.
Qed.

Lemma make_eq pm constructor_arguments ids :
  input_FieldProxyIDs constructor_arguments = Returns ids →
  make pm constructor_arguments =
    (fields ← make_fields pm ids []; schema ← arrow_schema fields;
     Returns {| schema := schema |}).
Proof.
  unfold input_FieldProxyIDs, make. intros H. repeat case_outcome. by rewrite H.
Qed.

(** C5: for the sequence [ids] of identifiers that [make] receives, the
    schema of the proxy it constructs has, in the order of [ids] and one for
    one, the fields that the registry holds under these identifiers;
    [make] constructs it whenever each identifier is registered for a field.
    The empty sequence gives the schema without fields, and [getNumFields]
    on the constructed proxy writes the length of [ids] into its first
    output slot. *)
Theorem make_preserves_fields pm constructor_arguments ids :
  input_FieldProxyIDs constructor_arguments = Returns ids →
  (∀ self, make pm constructor_arguments = Returns self →
     Forall2 (λ id f, holds_field pm id (Some f)) ids (arrow.fields (schema self))
     ∧ arrow.num_fields (schema self) = Z.of_nat (length ids)
     ∧ ∀ pm' context,
         ∃ context',
           getNumFields self pm' context = Returns (pm', context')
           ∧ outputs context' !! 0%nat
             = Some (mda.TypedArray_int32 [1; 1]%N [Z.of_nat (length ids)])
           ∧ error context' = error context
           ∧ context' = set_output context 0
               (mda.TypedArray_int32 [1; 1]%N [Z.of_nat (length ids)]))
  ∧ (∀ fs, Forall2 (λ id f, holds_field pm id (Some f)) ids fs →
       make pm constructor_arguments = Returns {| schema := arrow.schema fs |})
  ∧ (ids = [] →
       make pm constructor_arguments = Returns {| schema := arrow.schema [] |}
       ∧ arrow.num_fields (arrow.schema []) = 0).
Proof.
  intros Hin. rewrite (make_eq _ _ _ Hin).
  assert (∀ fs, Forall2 (λ id f, holds_field pm id (Some f)) ids fs →
    (fields ← make_fields pm ids []; schema ← arrow_schema fields;
     Returns {| schema := schema |}) = Returns {| schema := arrow.schema fs |})
    as Hmake.
  { intros fs H.
    rewrite (make_fields_held pm ids (Some <$> fs) []) by by apply Forall2_fmap_r.
    cbn [mbind outcome_bind app]. unfold arrow_schema.
    by rewrite mapM_fmap_Some. }
  split_and!; [|done|].
  - intros self Hself. case_outcome.
    apply make_fields_Returns in E as (fs & -> & H).
    unfold arrow_schema in Hself. simpl in Hself.
    destruct (mapM (λ field, field) fs) as [fs'|] eqn:Hfs; [|done].
    injection Hself as <-.
    apply mapM_Some in Hfs. simpl.
    assert (Forall2 (λ id f, holds_field pm id (Some f)) ids fs') as H'.
    { clear -H Hfs. revert fs' Hfs.
      induction H as [|id f ids fs Hid _ IH]; intros fs' Hfs.
      - apply Forall2_nil_inv_l in Hfs as ->. constructor.
      - apply Forall2_cons_inv_l in Hfs as (f' & fs'' & -> & Hfs & ->).
        constructor; [done|by apply IH]. }
    assert (arrow.num_fields (arrow.schema fs') = Z.of_nat (length ids)) as Hn.
    { unfold arrow.num_fields. simpl. by rewrite (Forall2_length _ _ _ H'). }
    split_and!; [done|done|].
    intros pm' context. unfold getNumFields, mda.createScalar_int32.
    eexists. split_and!; [done| |done|]; simpl.
    + rewrite lookup_insert_eq. do 3 f_equal. exact Hn.
    + do 3 f_equal. exact Hn.
  - intros ->. split; [|done]. apply (Hmake []). constructor.
Qed.

(** ** The reference conversions *)

Section reference_conversions.

Local Open Scope N_scope.

Ltac nlia := zify; Z.to_euclidean_division_equations; lia.

Ltac bool_cases :=
  repeat match goal with
  | |- context [N.ltb ?a ?b] => destruct (N.ltb_spec a b); try lia
  | |- context [N.leb ?a ?b] => destruct (N.leb_spec a b); try lia
  end.

Lemma is_scalar_spec cp :
  lib.is_scalar cp = true ↔ cp ≤ 0x10FFFF ∧ ¬ (0xD800 ≤ cp ≤ 0xDFFF).
Proof.
  unfold lib.is_scalar.
  destruct (N.leb_spec cp 0x10FFFF), (N.leb_spec 0xD800 cp), (N.leb_spec cp 0xDFFF);
    simpl; split; try done; try lia.
Qed.

Lemma utf8_decode_encode_scalar cp rest :
  lib.is_scalar cp = true →
  lib.utf8_decode (lib.utf8_encode_scalar cp ++ rest)
  = cps ← lib.utf8_decode rest; Some (cp :: cps).
Proof.
  intros Hs. pose proof (proj1 (is_scalar_spec cp) Hs) as [Hmax Hsur].
  unfold lib.utf8_encode_scalar.
  destruct (N.ltb_spec cp 0x80); [|destruct (N.ltb_spec cp 0x800); [|destruct (N.ltb_spec cp 0x10000)]].
  - simpl. destruct (N.ltb_spec cp 128); [done|lia].
  - set (b0 := 0xC0 + cp / 0x40). set (b1 := 0x80 + cp mod 0x40).
    assert (0xC2 ≤ b0 ≤ 0xDF) by (unfold b0; nlia).
    assert (0x80 ≤ b1 ≤ 0xBF) by (unfold b1; nlia).
    assert ((b0 - 0xC0) * 0x40 + (b1 - 0x80) = cp) as Hcp by (unfold b0, b1; nlia).
    clearbody b0 b1.
    cbn [app lib.utf8_decode]. rewrite Hcp. unfold lib.is_continuation.
    bool_cases. done.
  - set (b0 := 0xE0 + cp / 0x1000). set (b1 := 0x80 + (cp / 0x40) mod 0x40).
    set (b2 := 0x80 + cp mod 0x40).
    assert (0xE0 ≤ b0 ≤ 0xEF) by (unfold b0; nlia).
    assert (0x80 ≤ b1 ≤ 0xBF) by (unfold b1; nlia).
    assert (0x80 ≤ b2 ≤ 0xBF) by (unfold b2; nlia).
    assert ((b0 - 0xE0) * 0x1000 + (b1 - 0x80) * 0x40 + (b2 - 0x80) = cp) as Hcp
      by (unfold b0, b1, b2; nlia).
    clearbody b0 b1 b2.
    cbn [app lib.utf8_decode]. rewrite Hcp, Hs. unfold lib.is_continuation.
    bool_cases. done.
  - set (b0 := 0xF0 + cp / 0x40000). set (b1 := 0x80 + (cp / 0x1000) mod 0x40).
    set (b2 := 0x80 + (cp / 0x40) mod 0x40). set (b3 := 0x80 + cp mod 0x40).
    assert (0xF0 ≤ b0 ≤ 0xF4) by (unfold b0; nlia).
    assert (0x80 ≤ b1 ≤ 0xBF) by (unfold b1; nlia).
    assert (0x80 ≤ b2 ≤ 0xBF) by (unfold b2; nlia).
    assert (0x80 ≤ b3 ≤ 0xBF) by (unfold b3; nlia).
    assert ((b0 - 0xF0) * 0x40000 + (b1 - 0x80) * 0x1000
            + (b2 - 0x80) * 0x40 + (b3 - 0x80) = cp) as Hcp
      by (unfold b0, b1, b2, b3; nlia).
    clearbody b0 b1 b2 b3.
    cbn [app lib.utf8_decode]. rewrite Hcp, Hs. unfold lib.is_continuation.
    bool_cases. done.
Qed.

Lemma utf8_encode_scalar_bytes cp :
  lib.is_scalar cp = true → Forall (λ b, b < 256) (lib.utf8_encode_scalar cp).
Proof.
  intros [Hmax Hsur]%is_scalar_spec. unfold lib.utf8_encode_scalar.
  destruct (N.ltb_spec cp 0x80); [|destruct (N.ltb_spec cp 0x800); [|destruct (N.ltb_spec cp 0x10000)]];
    repeat constructor; nlia.
Qed.

Lemma utf8_decode_encode cps :
  Forall (λ cp, lib.is_scalar cp = true) cps →
  lib.utf8_decode (cps ≫= lib.utf8_encode_scalar) = Some cps.
Proof.
  induction 1 as [|cp cps Hcp _ IH]; [done|].
  rewrite bind_cons, utf8_decode_encode_scalar by done. by rewrite IH.
Qed.

Lemma utf8_encode_decode_aux n bs cps :
  (length bs ≤ n)%nat →
  lib.utf8_decode bs = Some cps →
  cps ≫= lib.utf8_encode_scalar = bs ∧ Forall (λ cp, lib.is_scalar cp = true) cps.
Proof.
  revert bs cps. induction n as [|n IH]; intros [|b0 r0] cps Hlen H;
    simpl in Hlen; try lia.
  - injection H as <-. done.
  - injection H as <-. done.
  - cbn [lib.utf8_decode] in H.
    destruct (N.ltb_spec b0 0x80).
    { destruct (lib.utf8_decode r0) as [cps'|] eqn:E; [|done].
      injection H as <-. apply IH in E as [<- Hall]; [|lia].
      rewrite bind_cons. unfold lib.utf8_encode_scalar at 1.
      destruct (N.ltb_spec b0 0x80); [|lia]. split; [done|].
      constructor; [|done]. apply is_scalar_spec. lia. }
    destruct (N.ltb_spec b0 0xC0); [done|].
    destruct (N.ltb_spec b0 0xE0).
    { destruct r0 as [|b1 r1]; [done|].
      unfold lib.is_continuation in H.
      set (cp := (b0 - 0xC0) * 0x40 + (b1 - 0x80)) in *.
      destruct (N.leb_spec 0x80 b1), (N.leb_spec b1 0xBF), (N.leb_spec 0x80 cp);
        cbn [andb] in H; try discriminate H.
      destruct (lib.utf8_decode r1) as [cps'|] eqn:E; [|done].
      injection H as <-. apply IH in E as [<- Hall]; [|simpl in Hlen; lia].
      rewrite bind_cons. unfold lib.utf8_encode_scalar at 1.
      assert (cp < 0x800) by (unfold cp; lia).
      destruct (N.ltb_spec cp 0x80); [lia|]. destruct (N.ltb_spec cp 0x800); [|lia].
      split; [|constructor; [apply is_scalar_spec; lia|done]].
      cbn [app]. f_equal; [unfold cp; nlia|]. f_equal. unfold cp; nlia. }
    destruct (N.ltb_spec b0 0xF0).
    { destruct r0 as [|b1 [|b2 r2]]; [try done..|].
      unfold lib.is_continuation in H.
      set (cp := (b0 - 0xE0) * 0x1000 + (b1 - 0x80) * 0x40 + (b2 - 0x80)) in *.
      destruct (N.leb_spec 0x80 b1), (N.leb_spec b1 0xBF), (N.leb_spec 0x80 b2),
        (N.leb_spec b2 0xBF), (N.leb_spec 0x800 cp), (lib.is_scalar cp) eqn:Hs;
        cbn [andb] in H; try discriminate H.
      destruct (lib.utf8_decode r2) as [cps'|] eqn:E; [|done].
      injection H as <-. apply IH in E as [<- Hall]; [|simpl in Hlen; lia].
      rewrite bind_cons. unfold lib.utf8_encode_scalar at 1.
      assert (cp < 0x10000) by (unfold cp; lia).
      destruct (N.ltb_spec cp 0x80); [lia|]. destruct (N.ltb_spec cp 0x800); [lia|].
      destruct (N.ltb_spec cp 0x10000); [|lia].
      split; [|by constructor].
      cbn [app]. f_equal; [unfold cp; nlia|]. f_equal; [unfold cp; nlia|].
      f_equal. unfold cp; nlia. }
    destruct (N.ltb_spec b0 0xF8); [|done].
    destruct r0 as [|b1 [|b2 [|b3 r3]]]; [try done..|].
    unfold lib.is_continuation in H.
    set (cp := (b0 - 0xF0) * 0x40000 + (b1 - 0x80) * 0x1000
               + (b2 - 0x80) * 0x40 + (b3 - 0x80)) in *.
    destruct (N.leb_spec 0x80 b1), (N.leb_spec b1 0xBF), (N.leb_spec 0x80 b2),
      (N.leb_spec b2 0xBF), (N.leb_spec 0x80 b3), (N.leb_spec b3 0xBF),
      (N.leb_spec 0x10000 cp), (lib.is_scalar cp) eqn:Hs;
      cbn [andb] in H; try discriminate H.
    destruct (lib.utf8_decode r3) as [cps'|] eqn:E; [|done].
    injection H as <-. apply IH in E as [<- Hall]; [|simpl in Hlen; lia].
    rewrite bind_cons. unfold lib.utf8_encode_scalar at 1.
    destruct (N.ltb_spec cp 0x80); [lia|]. destruct (N.ltb_spec cp 0x800); [lia|].
    destruct (N.ltb_spec cp 0x10000); [lia|].
    split; [|by constructor].
    apply is_scalar_spec in Hs as [Hmax _].
    cbn [app]. f_equal; [unfold cp in *; nlia|]. f_equal; [unfold cp in *; nlia|].
    f_equal; [unfold cp in *; nlia|]. f_equal. unfold cp in *; nlia.
Qed.

Lemma utf16_decode_encode_scalar cp rest :
  lib.is_scalar cp = true →
  lib.utf16_decode (lib.utf16_encode_scalar cp ++ rest)
  = cps ← lib.utf16_decode rest; Some (cp :: cps).
Proof.
  intros [Hmax Hsur]%is_scalar_spec. unfold lib.utf16_encode_scalar.
  destruct (N.ltb_spec cp 0x10000).
  - cbn [app lib.utf16_decode]. bool_cases; done.
  - set (u0 := 0xD800 + (cp - 0x10000) / 0x400).
    set (u1 := 0xDC00 + (cp - 0x10000) mod 0x400).
    assert (0xD800 ≤ u0 ≤ 0xDBFF) by (unfold u0; nlia).
    assert (0xDC00 ≤ u1 ≤ 0xDFFF) by (unfold u1; nlia).
    assert (0x10000 + (u0 - 0xD800) * 0x400 + (u1 - 0xDC00) = cp) as Hcp
      by (unfold u0, u1; nlia).
    clearbody u0 u1.
    cbn [app lib.utf16_decode]. rewrite Hcp. bool_cases; done.
Qed.

Lemma utf16_decode_encode cps :
  Forall (λ cp, lib.is_scalar cp = true) cps →
  lib.utf16_decode (cps ≫= lib.utf16_encode_scalar) = Some cps.
Proof.
  induction 1 as [|cp cps Hcp _ IH]; [done|].
  rewrite bind_cons, utf16_decode_encode_scalar by done. by rewrite IH.
Qed.

Lemma utf16_encode_decode_aux n us cps :
  (length us ≤ n)%nat →
  lib.utf16_decode us = Some cps →
  cps ≫= lib.utf16_encode_scalar = us ∧ Forall (λ cp, lib.is_scalar cp = true) cps.
Proof.
  revert us cps. induction n as [|n IH]; intros [|u0 r0] cps Hlen H;
    simpl in Hlen; try lia.
  - injection H as <-. done.
  - injection H as <-. done.
  - cbn [lib.utf16_decode] in H.
    destruct ((u0 <? 0xD800) || (0xE000 <=? u0) && (u0 <? 0x10000)) eqn:Hu.
    { destruct (lib.utf16_decode r0) as [cps'|] eqn:E; [|done].
      injection H as <-. apply IH in E as [<- Hall]; [|lia].
      rewrite bind_cons. unfold lib.utf16_encode_scalar at 1.
      assert (u0 < 0x10000 ∧ ¬ (0xD800 ≤ u0 ≤ 0xDFFF)) as [? ?].
      { destruct (N.ltb_spec u0 0xD800), (N.leb_spec 0xE000 u0),
          (N.ltb_spec u0 0x10000); simpl in Hu; try done; lia. }
      destruct (N.ltb_spec u0 0x10000); [|lia]. split; [done|].
      constructor; [|done]. apply is_scalar_spec. lia. }
    assert (0xD800 ≤ u0).
    { destruct (N.ltb_spec u0 0xD800); [done|lia]. }
    destruct (N.ltb_spec u0 0xDC00); [|done].
    destruct r0 as [|u1 r1]; [done|].
    set (cp := 0x10000 + (u0 - 0xD800) * 0x400 + (u1 - 0xDC00)) in *.
    destruct (N.leb_spec 0xDC00 u1), (N.ltb_spec u1 0xE000);
      cbn [andb] in H; try discriminate H.
    destruct (lib.utf16_decode r1) as [cps'|] eqn:E; [|done].
    injection H as <-. apply IH in E as [<- Hall]; [|simpl in Hlen; lia].
    rewrite bind_cons. unfold lib.utf16_encode_scalar at 1.
    destruct (N.ltb_spec cp 0x10000); [unfold cp in *; lia|].
    split; [|constructor; [apply is_scalar_spec; unfold cp; lia|done]].
    cbn [app]. f_equal; [unfold cp; nlia|]. f_equal. unfold cp; nlia.
Qed.

Lemma of_bytes_bytes s : lib.of_bytes (lib.bytes s) = s.
Proof.
  unfold lib.of_bytes, lib.bytes. rewrite <- list_fmap_compose.
  rewrite <- (String.string_of_list_ascii_of_string s) at 2. f_equal.
  induction (String.list_ascii_of_string s) as [|a l IH]; [done|].
  rewrite fmap_cons, IH. f_equal. apply Ascii.ascii_N_embedding.
Qed.

Lemma bytes_of_bytes bs : Forall (λ b, b < 256) bs → lib.bytes (lib.of_bytes bs) = bs.
Proof.
  intros H. unfold lib.of_bytes, lib.bytes.
  rewrite String.list_ascii_of_string_of_list_ascii, <- list_fmap_compose.
  induction H as [|b bs Hb _ IH]; [done|].
  rewrite fmap_cons, IH. f_equal. simpl. by apply Ascii.N_ascii_embedding.
Qed.

Lemma utf8_encode_bytes cps :
  Forall (λ cp, lib.is_scalar cp = true) cps →
  Forall (λ b, b < 256) (cps ≫= lib.utf8_encode_scalar).
Proof.
  induction 1 as [|cp cps Hcp _ IH]; [constructor|].
  rewrite bind_cons. apply Forall_app. split; [by apply utf8_encode_scalar_bytes|done].
Qed.

(** The reference conversions are inverse to each other. *)
Lemma lib_UTF8_UTF16_UTF8 s8 s16 :
  lib.UTF8StringToUTF16 s8 = arrow.Value s16 →
  lib.UTF16StringToUTF8 s16 = arrow.Value s8.
Proof.
  unfold lib.UTF8StringToUTF16, lib.UTF16StringToUTF8.
  destruct (lib.utf8_decode (lib.bytes s8)) as [cps|] eqn:E; [|done].
  intros [= <-].
  apply (utf8_encode_decode_aux _ _ _ (le_n _)) in E as [Hbytes Hall].
  rewrite utf16_decode_encode by done. by rewrite Hbytes, of_bytes_bytes.
Qed.

Lemma lib_UTF16_UTF8_UTF16 s16 s8 :
  lib.UTF16StringToUTF8 s16 = arrow.Value s8 →
  lib.UTF8StringToUTF16 s8 = arrow.Value s16.
Proof.
  unfold lib.UTF8StringToUTF16, lib.UTF16StringToUTF8.
  destruct (lib.utf16_decode s16) as [cps|] eqn:E; [|done].
  intros [= <-].
  apply (utf16_encode_decode_aux _ _ _ (le_n _)) in E as [Hunits Hall].
  rewrite bytes_of_bytes by by apply utf8_encode_bytes.
  rewrite utf8_decode_encode by done. by rewrite Hunits.
Qed.

End reference_conversions.

(** With the reference conversions, the names that [getFieldNames] returns
    decide [getFieldByName]: it succeeds on a name if and only if the name
    occurs exactly once among them. *)
Corollary getFieldByName_iff_once_in_getFieldNames
    self pm context name16 pm0 context0 pm1 context1 dims names16 :
  input_Name context = Returns name16 →
  is_Some (lib.utf16_decode name16) →
  outputs context0 !! 0%nat = None →
  sample.getFieldNames self pm0 context0 = Returns (pm1, context1) →
  outputs context1 !! 0%nat = Some (mda.StringArray dims names16) →
  (∃ f id, sample.getFieldByName self pm context =
          Returns ((manageProxy pm (Proxy_Field {| field := Some f |})).2,
                   set_output context 0 (mda.TypedArray_uint64 [1; 1]%N [id])))
  ↔ occurrences name16 names16 = 1%nat.
Proof.
  intros Hin [cps Hdec] Hfresh Hcall Hout.
  assert (∃ name8, lib.UTF16StringToUTF8 name16 = arrow.Value name8) as [name8 Hconv].
  { unfold lib.UTF16StringToUTF8. rewrite Hdec. by eexists. }
  pose proof (getFieldNames_output _ _ _ _ _ _ _ _ Hfresh Hcall Hout) as Hc.
  rewrite (occurrences_converted lib.UTF16StringToUTF8 lib.UTF8StringToUTF16
             _ _ name8 name16 Hc).
  - rewrite <- (getFieldByName_succeeds_iff lib.UTF16StringToUTF8
                  self pm context _ _ Hin Hconv).
    split.
    + intros (f & id & Hcall').
      destruct (getFieldByName_cases lib.UTF16StringToUTF8 self pm context _ _ Hin Hconv)
        as [[_ Hok]|[_ Hfail]]; [done|].
      unfold sample.getFieldByName in Hcall'. rewrite Hfail in Hcall'.
      injection Hcall' as Hpm _. symmetry in Hpm. by apply manageProxy_ne in Hpm.
    + intros (f & Hcall' & _). by exists f, (current_proxy_id pm).
  - apply Forall_forall. intros n8 _ n16. apply lib_UTF8_UTF16_UTF8.
  - done.
  - by apply lib_UTF16_UTF8_UTF16.
Qed.

(** ** The properties on the sample *)

Lemma getFieldByIndex_in_range_witness :
  let context := new_context (Index_inputs 2) in
  input_Index context = Returns 2
  ∧ 1 ≤ 2 ≤ arrow.num_fields (schema sample.abc)
  ∧ ∃ f pm' context',
      arrow.field (schema sample.abc) (2 - 1) = Some f
      ∧ arrow.name f = "b"
      ∧ getFieldByIndex sample.abc sample.registry context = Returns (pm', context')
      ∧ proxy_map pm' !! 3%N = Some (Proxy_Field {| field := Some f |})
      ∧ outputs context' !! 0%nat = Some (mda.TypedArray_uint64 [1; 1]%N [3%N])
      ∧ error context' = None.
Proof.
  intros context.
  assert (input_Index context = Returns 2) as H1 by reflexivity.
  assert (1 ≤ 2 ≤ arrow.num_fields (schema sample.abc)) as H2 by (split; vm_compute; discriminate).
  split; [exact H1|]. split; [exact H2|].
  destruct (getFieldByIndex_in_range lib.UTF8StringToUTF16
              sample.abc sample.registry context 2 H1 H2)
    as (f & pm' & context' & Hf & Hcall & _ & Hpm & _ & Hout & Herr & Hname & _).
  exists f, pm', context'.
  split; [exact Hf|]. split; [|split; [exact Hcall|split; [exact Hpm|split; [exact Hout|exact Herr]]]].
  change (Some "b" = Some (arrow.name f)) in Hname. by injection Hname.
Defined.

Lemma getFieldByIndex_out_of_range_witness :
  let least := new_context (Index_inputs (- 2 ^ 31)) in
  let context := new_context (Index_inputs 0) in
  (input_Index least = Returns (- 2 ^ 31)
   ∧ ¬ (1 ≤ - 2 ^ 31 ≤ arrow.num_fields (schema sample.abc))
   ∧ getFieldByIndex sample.abc sample.registry least = Undefined)
  ∧ (input_Index context = Returns 0
     ∧ ¬ (1 ≤ 0 ≤ arrow.num_fields (schema sample.abc))
     ∧ ∃ context' e,
         getFieldByIndex sample.abc sample.registry context
         = Returns (sample.registry, context')
         ∧ error context' = Some e
         ∧ outputs context' = outputs context
         ∧ id e = error.ARROW_TABULAR_SCHEMA_INVALID_NUMERIC_FIELD_INDEX).
Proof.
  intros least context. split.
  - assert (input_Index least = Returns (- 2 ^ 31)) as H1 by reflexivity.
    assert (¬ (1 ≤ - 2 ^ 31 ≤ arrow.num_fields (schema sample.abc))) as H2
      by (intros [H _]; lia).
    split; [exact H1|]. split; [exact H2|].
    exact (proj1 (getFieldByIndex_out_of_range
                    sample.abc sample.registry least _ H1 H2) eq_refl).
  - assert (input_Index context = Returns 0) as H1 by reflexivity.
    assert (¬ (1 ≤ 0 ≤ arrow.num_fields (schema sample.abc))) as H2
      by (intros [H _]; lia).
    assert (- 2 ^ 31 < 0) as H3 by lia.
    split; [exact H1|]. split; [exact H2|].
    destruct (proj1 (proj2 (getFieldByIndex_out_of_range
                              sample.abc sample.registry context 0 H1 H2)) H3)
      as (context' & e & Hcall & He & Hout & _ & Hid & _).
    exists context', e.
    split; [exact Hcall|]. split; [exact He|]. split; [exact Hout|exact Hid].
Defined.

Lemma getFieldByIndex_invalid_index_message_witness :
  let least := new_context (Index_inputs (- 2 ^ 31)) in
  let context := new_context (Index_inputs 0) in
  (input_Index least = Returns (- 2 ^ 31)
   ∧ getFieldByIndex sample.abc sample.registry least = Undefined)
  ∧ (input_Index context = Returns 0
     ∧ 1 ≤ arrow.num_fields (schema sample.abc)
     ∧ (0 < 1 ∨ 0 > arrow.num_fields (schema sample.abc))
     ∧ ∃ context',
         getFieldByIndex sample.abc sample.registry context
         = Returns (sample.registry, context')
         ∧ error context' =
             Some {| id := error.ARROW_TABULAR_SCHEMA_INVALID_NUMERIC_FIELD_INDEX;
                     message := "Invalid field index: 0. Field index must be between 1 and the number of fields (3)." |}
         ∧ outputs context' = outputs context).
Proof.
  intros least context.
  assert (1 ≤ arrow.num_fields (schema sample.abc)) as H2 by (vm_compute; discriminate).
  split.
  - assert (input_Index least = Returns (- 2 ^ 31)) as H1 by reflexivity.
    assert (- 2 ^ 31 < 1 ∨ - 2 ^ 31 > arrow.num_fields (schema sample.abc)) as H3
      by (left; lia).
    split; [exact H1|].
    exact (proj1 (getFieldByIndex_invalid_index_message
                    sample.abc sample.registry least _ H1 H2 H3) eq_refl).
  - assert (input_Index context = Returns 0) as H1 by reflexivity.
    assert (0 < 1 ∨ 0 > arrow.num_fields (schema sample.abc)) as H3 by (left; lia).
    assert (- 2 ^ 31 < 0) as H4 by lia.
    split; [exact H1|]. split; [exact H2|]. split; [exact H3|].
    destruct (proj2 (getFieldByIndex_invalid_index_message
                       sample.abc sample.registry context 0 H1 H2 H3) H4)
      as (context' & e & Hcall & He & Hmsg & Hout & _).
    exists context'. split; [exact Hcall|]. split; [|exact Hout].
    rewrite He. f_equal. exact Hmsg.
Defined.

Lemma getFieldByIndex_access_in_range_witness :
  let context := new_context (Index_inputs 2) in
  let least := new_context (Index_inputs (- 2 ^ 31)) in
  input_Index context = Returns 2
  ∧ getFieldByIndex sample.abc sample.registry context ≠ Undefined
  ∧ int32_sub 2 1 = Returns 1
  ∧ arrow.field (schema sample.abc) 1 = Some sample.field_b
  ∧ input_Index least = Returns (- 2 ^ 31)
  ∧ getFieldByIndex sample.abc sample.registry least = Undefined.
Proof.
  intros context least.
  assert (input_Index context = Returns 2) as H1 by reflexivity.
  assert (input_Index least = Returns (- 2 ^ 31)) as H2 by reflexivity.
  split; [exact H1|].
  destruct (getFieldByIndex_access_in_range sample.abc sample.registry context 2 H1)
    as [Hundef _].
  destruct (getFieldByIndex_access_in_range sample.abc sample.registry least _ H2)
    as [Hleast _].
  split; [intros H; apply Hundef in H; discriminate H|].
  split; [reflexivity|]. split; [reflexivity|]. split; [exact H2|].
  exact (proj2 Hleast eq_refl).
Defined.


Lemma getFieldNames_converts_in_order_witness :
  ∃ context',
    sample.getFieldNames sample.aab sample.registry (new_context []) =
      Returns (sample.registry, context')
    ∧ outputs context' !! 0%nat
      = Some (mda.StringArray [1; 3]%N [[97%N]; [97%N]; [98%N]])
    ∧ error context' = None.
Proof.
  destruct (proj1 (getFieldNames_converts_in_order lib.UTF8StringToUTF16
                     sample.aab sample.registry (new_context []))
              [[97%N]; [97%N]; [98%N]])
    as (context' & _ & Hcall & _ & Hout & Herr & _).
  - repeat constructor.
  - exists context'. split; [exact Hcall|]. split; [exact Hout|exact Herr].
Defined.

Lemma make_preserves_fields_witness :
  input_FieldProxyIDs (FieldProxyIDs_inputs [0; 1; 2]%N) = Returns [0; 1; 2]%N
  ∧ make sample.registry (FieldProxyIDs_inputs [0; 1; 2]%N) = Returns sample.abc
  ∧ ∀ pm context,
      ∃ context',
        getNumFields sample.abc pm context = Returns (pm, context')
        ∧ outputs context' !! 0%nat = Some (mda.TypedArray_int32 [1; 1]%N [3])
        ∧ error context' = error context.
Proof.
  assert (input_FieldProxyIDs (FieldProxyIDs_inputs [0; 1; 2]%N)
          = Returns [0; 1; 2]%N) as H1 by reflexivity.
  assert (make sample.registry (FieldProxyIDs_inputs [0; 1; 2]%N)
          = Returns sample.abc) as H2 by reflexivity.
  split; [exact H1|]. split; [exact H2|]. intros pm context.
  destruct (proj2 (proj2 (proj1 (make_preserves_fields sample.registry
                                   (FieldProxyIDs_inputs [0; 1; 2]%N) _ H1)
                            sample.abc H2)) pm context)
    as (context' & Hcall & Hout & Herr & _).
  exists context'. split; [exact Hcall|]. split; [exact Hout|exact Herr].
Defined.

Lemma exactly_one_of_output_or_error_witness :
  let context := new_context (Index_inputs 4) in
  let least := new_context (Index_inputs (- 2 ^ 31)) in
  (∃ pm' context',
     getFieldByIndex sample.abc sample.registry context = Returns (pm', context')
     ∧ ((is_Some (outputs context' !! 0%nat) ∧ error context' = None)
        ∨ (is_Some (error context') ∧ outputs context' = outputs context
           ∧ outputs context' !! 0%nat = None)))
  ∧ getFieldByIndex sample.abc sample.registry least = Undefined.
Proof.
  intros context least. split.
  - apply (exactly_one_of_output_or_error
             lib.UTF16StringToUTF8 lib.UTF8StringToUTF16 lib.ToString
             sample.abc "getFieldByIndex" (getFieldByIndex sample.abc)
             sample.registry context).
    + apply list_elem_of_here.
    + reflexivity.
    + reflexivity.
    + intros _. exists 4. reflexivity.
    + intros H. discriminate H.
    + intros [_ H]. discriminate H.
  - apply (exactly_one_of_output_or_error
             lib.UTF16StringToUTF8 lib.UTF8StringToUTF16 lib.ToString
             sample.abc "getFieldByIndex" (getFieldByIndex sample.abc)
             sample.registry least).
    + apply list_elem_of_here.
    + reflexivity.
    + reflexivity.
    + intros _. exists (- 2 ^ 31). reflexivity.
    + intros H. discriminate H.
    + reflexivity.
    + reflexivity.
Defined.

Lemma lookups_register_fresh_proxies_witness :
  let context := new_context (Index_inputs 2) in
  let proxy := Proxy_Field {| field := Some sample.field_b |} in
  let pm1 := (manageProxy sample.registry proxy).2 in
  let context1 := set_output context 0 (mda.TypedArray_uint64 [1; 1]%N [3%N]) in
  error context = None
  ∧ getFieldByIndex sample.abc sample.registry context = Returns (pm1, context1)
  ∧ error context1 = None
  ∧ ∃ f id1 id2 pm2 context2',
      outputs context1 !! 0%nat = Some (mda.TypedArray_uint64 [1; 1]%N [id1])
      ∧ getFieldByIndex sample.abc pm1 context = Returns (pm2, context2')
      ∧ outputs context2' !! 0%nat = Some (mda.TypedArray_uint64 [1; 1]%N [id2])
      ∧ id2 ≠ id1
      ∧ proxy_map pm2 !! id1 = Some (Proxy_Field {| field := Some f |})
      ∧ proxy_map pm2 !! id2 = Some (Proxy_Field {| field := Some f |}).
Proof.
  intros context proxy pm1 context1.
  assert (error context = None) as H1 by reflexivity.
  assert (getFieldByIndex sample.abc sample.registry context = Returns (pm1, context1))
    as H2 by reflexivity.
  assert (error context1 = None) as H3 by reflexivity.
  split; [exact H1|]. split; [exact H2|]. split; [exact H3|].
  destruct (lookups_register_fresh_proxies lib.UTF16StringToUTF8
              sample.abc (getFieldByIndex sample.abc) sample.registry context
              pm1 context1 (or_introl eq_refl) H1 H2 H3)
    as (f & id1 & id2 & pm2 & _ & Hout1 & _ & _ & _ & Hagain & Hne & Hid1 & Hid2 & _).
  destruct (Hagain context eq_refl) as (context2' & Hcall & _ & Hout2 & _).
  exists f, id1, id2, pm2, context2'.
  split; [exact Hout1|]. split; [exact Hcall|]. split; [exact Hout2|].
  split; [exact Hne|]. split; [exact Hid1|exact Hid2].
Defined.

Lemma failed_lookup_leaves_registry_witness :
  let context := new_context (Name_inputs [97%N]) in
  let context' := set_error context
    {| id := error.ARROW_TABULAR_SCHEMA_AMBIGUOUS_FIELD_NAME;
       message := "Field named 'a' not found or not unique in the schema." |} in
  error context = None
  ∧ sample.getFieldByName sample.aab sample.registry context
    = Returns (sample.registry, context')
  ∧ is_Some (error context')
  ∧ outputs context' = outputs context.
Proof.
  intros context context'.
  assert (error context = None) as H1 by reflexivity.
  assert (sample.getFieldByName sample.aab sample.registry context
          = Returns (sample.registry, context')) as H2 by reflexivity.
  assert (is_Some (error context')) as H3 by (eexists; reflexivity).
  split; [exact H1|]. split; [exact H2|]. split; [exact H3|].
  exact (proj1 (proj2 (proj1 (failed_lookup_leaves_registry lib.UTF16StringToUTF8
                  sample.aab (sample.getFieldByName sample.aab)
                  sample.registry context sample.registry context'
                  (or_intror eq_refl) H1 H2) H3))).
Defined.

(** ** The scenarios of the specification, run on the sample *)

Example num_fields_abc pm context :
  sample.getNumFields sample.abc pm context =
    Returns (pm, set_output context 0 (mda.TypedArray_int32 [1; 1]%N [3])).
Proof. reflexivity. Qed.

Example index_4_of_abc :
  sample.getFieldByIndex sample.abc sample.registry (new_context (Index_inputs 4)) =
    Returns (sample.registry, set_error (new_context (Index_inputs 4))
      {| id := error.ARROW_TABULAR_SCHEMA_INVALID_NUMERIC_FIELD_INDEX;
         message := "Invalid field index: 4. Field index must be between 1 and the number of fields (3)." |}).
Proof. reflexivity. Qed.

Example index_minus_1_of_abc :
  sample.getFieldByIndex sample.abc sample.registry (new_context (Index_inputs (-1))) =
    Returns (sample.registry, set_error (new_context (Index_inputs (-1)))
      {| id := error.ARROW_TABULAR_SCHEMA_INVALID_NUMERIC_FIELD_INDEX;
         message := "Invalid field index: -1. Field index must be between 1 and the number of fields (3)." |}).
Proof. reflexivity. Qed.

Example index_1_of_empty :
  sample.getFieldByIndex sample.empty sample.registry (new_context (Index_inputs 1)) =
    Returns (sample.registry, set_error (new_context (Index_inputs 1)) makeEmptySchemaError).
Proof. reflexivity. Qed.

Example names_of_empty :
  sample.getFieldNames sample.empty sample.registry (new_context []) =
    Returns (sample.registry,
             set_output (new_context []) 0 (mda.StringArray [1; 0]%N [])).
Proof. reflexivity. Qed.

Example name_a_of_aab :
  sample.getFieldByName sample.aab sample.registry (new_context (Name_inputs [97%N])) =
    Returns (sample.registry, set_error (new_context (Name_inputs [97%N]))
      {| id := error.ARROW_TABULAR_SCHEMA_AMBIGUOUS_FIELD_NAME;
         message := "Field named 'a' not found or not unique in the schema." |}).
Proof. reflexivity. Qed.

Example name_z_of_aab :
  sample.getFieldByName sample.aab sample.registry (new_context (Name_inputs [122%N])) =
    Returns (sample.registry, set_error (new_context (Name_inputs [122%N]))
      {| id := error.ARROW_TABULAR_SCHEMA_AMBIGUOUS_FIELD_NAME;
         message := "Field named 'z' not found or not unique in the schema." |}).
Proof. reflexivity. Qed.

Example name_lone_surrogate_of_aab :
  sample.getFieldByName sample.aab sample.registry (new_context (Name_inputs [0xD83D%N])) =
    Returns (sample.registry, set_error (new_context (Name_inputs [0xD83D%N]))
      {| id := error.UNICODE_CONVERSION_ERROR_ID;
         message := "Invalid UTF16 sequence" |}).
Proof. reflexivity. Qed.

Example index_1_and_2_of_aab :
  arrow.field (schema sample.aab) (1 - 1) = Some sample.field_a
  ∧ arrow.field (schema sample.aab) (2 - 1) = Some sample.field_a.
Proof. split; reflexivity. Qed.

Example least_index_of_abc :
  sample.getFieldByIndex sample.abc sample.registry
    (new_context (Index_inputs (- 2 ^ 31))) = Undefined.
Proof. reflexivity. Qed.

Example least_index_of_empty :
  sample.getFieldByIndex sample.empty sample.registry
    (new_context (Index_inputs (- 2 ^ 31))) = Undefined.
Proof. reflexivity. Qed.

Example toString_of_aab :
  ∃ str, sample.toString sample.aab sample.registry (new_context []) =
    Returns (sample.registry,
             set_output (new_context []) 0 (mda.StringArray [1; 1]%N [str]))
  ∧ str ≠ [].
Proof. eexists. split; [reflexivity|discriminate]. Qed.

Example missing_input_throws :
  sample.getFieldByIndex sample.abc sample.registry (new_context []) = Throws.
Proof. reflexivity. Qed.

Example make_of_schema_proxy_id pm :
  proxy_map pm !! 7%N = Some (Proxy_Schema sample.abc) →
  make pm (FieldProxyIDs_inputs [7%N]) = Undefined.
Proof. intros H. unfold make. simpl. unfold getProxy. by rewrite H. Qed.

Example make_of_unknown_id :
  make sample.registry (FieldProxyIDs_inputs [7%N]) = Throws.
Proof. reflexivity. Qed.

Example registry_of_sample_ok : registry_ok 1 sample.registry.
Proof.
  change sample.registry with
    (manageProxy (manageProxy (manageProxy empty_registry
       (Proxy_Field {| field := Some sample.field_a |})).2
       (Proxy_Field {| field := Some sample.field_b |})).2
       (Proxy_Field {| field := Some sample.field_c |})).2.
  do 3 apply registry_ok_manageProxy.
  apply (registry_ok_weaken (2 ^ 64 - 1)); [done|apply registry_ok_empty].
Qed.

(** * Further properties *)

(** ** The outcomes of the factory *)

Lemma Forall_exists_Forall2 {A B} (P : A → B → Prop) (l : list A) :
  Forall (λ x, ∃ y, P x y) l ↔ ∃ k, Forall2 P l k.
Proof.
  split.
  - induction 1 as [|x l [y Hy] _ [k IH]]; [by exists []|].
    exists (y :: k). by constructor.
  - intros [k H]. induction H; constructor; eauto.
Qed.

Lemma make_fields_miss pm pre bad post fs acc :
  Forall2 (holds_field pm) pre fs →
  proxy_map pm !! bad = None →
  make_fields pm (pre ++ bad :: post) acc = Throws.
Proof.
  intros H Hbad. revert acc.
  induction H as [|id f ids fs Hid _ IH]; intros acc; simpl.
  - unfold getProxy. by rewrite Hbad.
  - unfold getProxy. rewrite Hid. simpl. apply IH.
Qed.

Lemma make_fields_schema pm pre bad post fs p acc :
  Forall2 (holds_field pm) pre fs →
  proxy_map pm !! bad = Some (Proxy_Schema p) →
  make_fields pm (pre ++ bad :: post) acc = Undefined.
Proof.
  intros H Hbad. revert acc.
  induction H as [|id f ids fs Hid _ IH]; intros acc; simpl.
  - unfold getProxy. by rewrite Hbad.
  - unfold getProxy. rewrite Hid. simpl. apply IH.
Qed.

(** The identifiers either all denote field proxies, or there is a first
    one that does not: it is unknown to the registry, or it denotes a
    schema proxy. *)
Lemma make_fields_cases pm ids :
  (∃ fs, Forall2 (holds_field pm) ids fs)
  ∨ (∃ pre bad post fs,
       ids = pre ++ bad :: post ∧ Forall2 (holds_field pm) pre fs
       ∧ proxy_map pm !! bad = None)
  ∨ (∃ pre bad post fs p,
       ids = pre ++ bad :: post ∧ Forall2 (holds_field pm) pre fs
       ∧ proxy_map pm !! bad = Some (Proxy_Schema p)).
Proof.
  induction ids as [|id ids IH]; [left; by exists []|].
  destruct (proxy_map pm !! id) as [[[f]|p]|] eqn:Hid.
  - destruct IH as [[fs H]|[(pre & bad & post & fs & -> & H & Hbad)
                           |(pre & bad & post & fs & p & -> & H & Hbad)]].
    + left. exists (f :: fs). by constructor.
    + right. left. exists (id :: pre), bad, post, (f :: fs).
      split_and!; [done|by constructor|done].
    + right. right. exists (id :: pre), bad, post, (f :: fs), p.
      split_and!; [done|by constructor|done].
  - right. right. exists [], id, ids, [], p. split_and!; [done|constructor|done].
  - right. left. exists [], id, ids, []. split_and!; [done|constructor|done].
Qed.

Lemma make_Returns pm constructor_arguments ids self :
  input_FieldProxyIDs constructor_arguments = Returns ids →
  make pm constructor_arguments = Returns self →
  Forall2 (λ id f, holds_field pm id (Some f)) ids (arrow.fields (unwrap self)).
Proof.
  intros Hin. rewrite (make_eq _ _ _ Hin). intros Hself.
  destruct (make_fields pm ids []) as [fs| |] eqn:E; try done.
  apply make_fields_Returns in E as (fs' & -> & H).
  cbn [mbind outcome_bind app] in Hself. unfold arrow_schema in Hself.
  destruct (mapM (λ field, field) fs') as [fs''|] eqn:Hfs; [|done].
  injection Hself as <-. apply mapM_Some in Hfs. simpl.
  clear -H Hfs. revert fs'' Hfs.
  induction H as [|id f ids fs Hid _ IH]; intros fs'' Hfs.
  - apply Forall2_nil_inv_l in Hfs as ->. constructor.
  - apply Forall2_cons_inv_l in Hfs as (f' & fs3 & -> & Hfs & ->).
    constructor; [done|by apply IH].
Qed.

Lemma make_held pm constructor_arguments ids fs :
  input_FieldProxyIDs constructor_arguments = Returns ids →
  Forall2 (λ id f, holds_field pm id (Some f)) ids fs →
  make pm constructor_arguments = Returns {| schema := arrow.schema fs |}.
Proof.
  intros Hin H. rewrite (make_eq _ _ _ Hin).
  rewrite (make_fields_held pm ids (Some <$> fs) []) by by apply Forall2_fmap_r.
  cbn [mbind outcome_bind app]. unfold arrow_schema.
  by rewrite mapM_fmap_Some.
Qed.

(** X1: [make] returns a schema proxy exactly when every identifier it
    receives denotes, in the registry, a field proxy around a field. It
    throws exactly when there is an identifier unknown to the registry with
    only field proxies before it. In the remaining cases (a proxy of another
    class, or a field proxy around a null pointer, and no unknown identifier
    before) its behaviour is undefined. *)
Theorem make_outcomes pm constructor_arguments ids :
  input_FieldProxyIDs constructor_arguments = Returns ids →
  ((∃ self, make pm constructor_arguments = Returns self)
     ↔ Forall (λ id, ∃ f, holds_field pm id (Some f)) ids)
  ∧ (make pm constructor_arguments = Throws
     ↔ ∃ pre bad post,
         ids = pre ++ bad :: post
         ∧ Forall (λ id, ∃ f, holds_field pm id f) pre
         ∧ proxy_map pm !! bad = None)
  ∧ (make pm constructor_arguments = Undefined
     ↔ ¬ Forall (λ id, ∃ f, holds_field pm id (Some f)) ids
       ∧ ¬ ∃ pre bad post,
             ids = pre ++ bad :: post
             ∧ Forall (λ id, ∃ f, holds_field pm id f) pre
             ∧ proxy_map pm !! bad = None).
Proof.
  intros Hin.
  assert ((∃ self, make pm constructor_arguments = Returns self)
          ↔ Forall (λ id, ∃ f, holds_field pm id (Some f)) ids) as HA.
  { split.
    - intros [self Hself]. apply Forall_exists_Forall2.
      eexists. by eapply make_Returns.
    - intros [fs H]%Forall_exists_Forall2. eexists. by eapply make_held. }
  assert (make pm constructor_arguments = Throws
          ↔ ∃ pre bad post,
              ids = pre ++ bad :: post
              ∧ Forall (λ id, ∃ f, holds_field pm id f) pre
              ∧ proxy_map pm !! bad = None) as HB.
  { rewrite (make_eq _ _ _ Hin). split.
    - destruct (make_fields_cases pm ids)
        as [[fs H]|[(pre & bad & post & fs & -> & H & Hbad)
                   |(pre & bad & post & fs & p & -> & H & Hbad)]].
      + rewrite (make_fields_held _ _ _ [] H). cbn [mbind outcome_bind app].
        unfold arrow_schema. by destruct (mapM _ fs).
      + intros _. exists pre, bad, post. split_and!; [done| |done].
        apply Forall_exists_Forall2. by exists fs.
      + by rewrite (make_fields_schema _ _ _ _ _ _ _ H Hbad).
    - intros (pre & bad & post & -> & [fs H]%Forall_exists_Forall2 & Hbad).
      by rewrite (make_fields_miss _ _ _ _ _ _ H Hbad). }
  split_and!; [done|done|].
  rewrite <- HA, <- HB. split.
  - intros H. rewrite H. split; [by intros [? ?]|done].
  - intros [HnA HnB]. destruct (make pm constructor_arguments) as [self| |]; try done.
    destruct HnA. by exists self.
Qed.

(** ** Occurrences *)

Lemma occurrences_lookup {A} `{EqDecision A} (l : list A) k x :
  l !! k = Some x → (1 ≤ occurrences x l)%nat.
Proof.
  unfold occurrences. revert k. induction l as [|y l IH]; intros k; [done|].
  rewrite filter_cons. destruct k as [|k]; simpl.
  - intros [= ->]. rewrite decide_True by done. simpl. lia.
  - intros Hk%IH. destruct (decide (y = x)); simpl; lia.
Qed.

Lemma occurrences_lookup_2 {A} `{EqDecision A} (l : list A) j k x :
  j ≠ k → l !! j = Some x → l !! k = Some x → (2 ≤ occurrences x l)%nat.
Proof.
  revert j k. induction l as [|y l IH]; intros j k Hne Hj Hk; [done|].
  unfold occurrences in *. rewrite filter_cons.
  destruct j as [|j], k as [|k]; simpl in *; try done.
  - injection Hj as ->. rewrite decide_True by done. simpl.
    apply occurrences_lookup in Hk. unfold occurrences in Hk. lia.
  - injection Hk as ->. rewrite decide_True by done. simpl.
    apply occurrences_lookup in Hj. unfold occurrences in Hj. lia.
  - assert (j ≠ k) as Hne' by congruence.
    pose proof (IH j k Hne' Hj Hk). destruct (decide (y = x)); simpl; lia.
Qed.

(** ** A field by its position *)

Lemma getFieldByIndex_at self pm context k f :
  arrow.fields (schema self) !! k = Some f →
  input_Index context = Returns (Z.of_nat k + 1) →
  getFieldByIndex self pm context =
    Returns ((manageProxy pm (Proxy_Field {| field := Some f |})).2,
             set_output context 0
               (mda.TypedArray_uint64 [1; 1]%N [current_proxy_id pm])).
Proof.
  intros Hk Hin.
  destruct (getFieldByIndex_cases self pm context _ Hin)
    as [(Hmin & _)|[(_ & Hout & _)|(_ & _ & f' & Hl & _ & Hcall)]].
  - lia.
  - destruct Hout. apply lookup_lt_Some in Hk. unfold arrow.num_fields. lia.
  - rewrite Hcall.
    replace (Z.to_nat (Z.of_nat k + 1 - 1)) with k in Hl by lia.
    rewrite Hk in Hl. by injection Hl as <-.
Qed.

Lemma made_field_at pm constructor_arguments ids self k id :
  input_FieldProxyIDs constructor_arguments = Returns ids →
  make pm constructor_arguments = Returns self →
  ids !! k = Some id →
  ∃ f, holds_field pm id (Some f) ∧ arrow.fields (schema self) !! k = Some f.
Proof.
  intros Hin Hself Hk.
  pose proof (make_Returns _ _ _ _ Hin Hself) as H.
  destruct (Forall2_lookup_l _ _ _ _ _ H Hk) as (f & Hf & Hid). by exists f.
Qed.

(** X2: the positions of a schema proxy are those of the identifiers it was
    made of: on the proxy that [make] returns for [ids], [getFieldByIndex]
    with the 1-based index [k + 1] registers a proxy equal to the one that
    the registry of [make] holds under the [k]-th (0-based) identifier, and
    output 0 of the call holds the identifier of the registered proxy. *)
Theorem make_then_getFieldByIndex pm constructor_arguments ids self k id pm' context :
  input_FieldProxyIDs constructor_arguments = Returns ids →
  make pm constructor_arguments = Returns self →
  ids !! k = Some id →
  input_Index context = Returns (Z.of_nat k + 1) →
  ∃ p,
    proxy_map pm !! id = Some p
    ∧ getFieldByIndex self pm' context =
        Returns ((manageProxy pm' p).2,
                 set_output context 0
                   (mda.TypedArray_uint64 [1; 1]%N [current_proxy_id pm']))
    ∧ proxy_map (manageProxy pm' p).2 !! current_proxy_id pm' = Some p
    ∧ outputs (set_output context 0
                 (mda.TypedArray_uint64 [1; 1]%N [current_proxy_id pm'])) !! 0%nat
      = Some (mda.TypedArray_uint64 [1; 1]%N [current_proxy_id pm']).
Proof.
  intros Hin Hself Hk Hindex.
  destruct (made_field_at _ _ _ _ _ _ Hin Hself Hk) as (f & Hid & Hf).
  exists (Proxy_Field {| field := Some f |}). split_and!; [done| | |].
  - by eapply getFieldByIndex_at.
  - simpl. by rewrite lookup_insert_eq.
  - simpl. by rewrite lookup_insert_eq.
Qed.

Section further.

Variable UTF16StringToUTF8 : u16string → arrow.Result string.
Variable UTF8StringToUTF16 : string → arrow.Result u16string.
Variable ToString : arrow.Schema → string.

Abbreviation getFieldByName := (getFieldByName UTF16StringToUTF8).
Abbreviation getFieldNames := (getFieldNames UTF8StringToUTF16).
Abbreviation toString := (toString UTF8StringToUTF16 ToString).
Abbreviation registered_methods :=
  (registered_methods UTF16StringToUTF8 UTF8StringToUTF16 ToString).

(** X3: the names of a schema proxy are those of the fields it was made
    of: what [getFieldNames] returns on the proxy that [make] returns for
    [ids] has one name for each identifier, in the order of [ids], the
    conversion of the name of the field that the registry of [make] holds
    under the identifier. *)
Theorem make_then_getFieldNames
    pm constructor_arguments ids self pm' context pm'' context' dims names16 :
  input_FieldProxyIDs constructor_arguments = Returns ids →
  make pm constructor_arguments = Returns self →
  outputs context !! 0%nat = None →
  getFieldNames self pm' context = Returns (pm'', context') →
  outputs context' !! 0%nat = Some (mda.StringArray dims names16) →
  Forall2 (λ id n16, ∃ f, holds_field pm id (Some f)
                          ∧ UTF8StringToUTF16 (arrow.name f) = arrow.Value n16)
          ids names16
  ∧ length names16 = length ids.
Proof.
  intros Hin Hself Hfresh Hcall Hout.
  pose proof (make_Returns _ _ _ _ Hin Hself) as H.
  pose proof (getFieldNames_output _ _ _ _ _ _ _ _ Hfresh Hcall Hout) as Hc.
  unfold arrow.field_names in Hc. apply Forall2_fmap_l in Hc.
  assert (Forall2 (λ id n16, ∃ f, holds_field pm id (Some f)
            ∧ UTF8StringToUTF16 (arrow.name f) = arrow.Value n16) ids names16) as HF.
  { clear -H Hc. revert names16 Hc. unfold unwrap in H.
    induction H as [|id f ids fs Hid _ IH]; intros names16 Hc.
    - apply Forall2_nil_inv_l in Hc as ->. constructor.
    - apply Forall2_cons_inv_l in Hc as (n16 & ns & Hn & Hc & ->).
      constructor; [by exists f|by apply IH]. }
  split; [done|]. symmetry. by eapply Forall2_length.
Qed.

(** X4: [make] accepts fields of the same name, and the name is then
    ambiguous: when two positions of [ids] denote fields of one name,
    [getFieldByName] with that name on the schema proxy made of [ids] fails
    with [ARROW_TABULAR_SCHEMA_AMBIGUOUS_FIELD_NAME] and registers nothing,
    while [getFieldByIndex] reaches each of the two fields. *)
Theorem duplicate_names_are_ambiguous
    pm constructor_arguments ids self j k idj idk fj fk name16 pm' context :
  input_FieldProxyIDs constructor_arguments = Returns ids →
  make pm constructor_arguments = Returns self →
  j ≠ k → ids !! j = Some idj → ids !! k = Some idk →
  holds_field pm idj (Some fj) → holds_field pm idk (Some fk) →
  arrow.name fj = arrow.name fk →
  input_Name context = Returns name16 →
  UTF16StringToUTF8 name16 = arrow.Value (arrow.name fj) →
  (∃ msg, getFieldByName self pm' context =
     Returns (pm', set_error context
       {| id := error.ARROW_TABULAR_SCHEMA_AMBIGUOUS_FIELD_NAME; message := msg |}))
  ∧ ∀ i f contextI,
      (i = j ∧ f = fj) ∨ (i = k ∧ f = fk) →
      input_Index contextI = Returns (Z.of_nat i + 1) →
      getFieldByIndex self pm' contextI =
        Returns ((manageProxy pm' (Proxy_Field {| field := Some f |})).2,
                 set_output contextI 0
                   (mda.TypedArray_uint64 [1; 1]%N [current_proxy_id pm'])).
Proof.
  intros Hin Hself Hne Hj Hk Hfj Hfk Hname Hinput Hconv.
  destruct (made_field_at _ _ _ _ _ _ Hin Hself Hj) as (fj' & Hfj' & Hlj).
  destruct (made_field_at _ _ _ _ _ _ Hin Hself Hk) as (fk' & Hfk' & Hlk).
  unfold holds_field in *.
  assert (fj' = fj) as -> by congruence. assert (fk' = fk) as -> by congruence.
  split.
  - destruct (getFieldByName_cases UTF16StringToUTF8 self pm' context _ _ Hinput Hconv)
      as [[Hone _]|[_ Hcall]]; [|by eexists].
    apply field_names_lookup in Hlj, Hlk. rewrite <- Hname in Hlk.
    pose proof (occurrences_lookup_2 _ _ _ _ Hne Hlj Hlk). lia.
  - intros i f contextI [[-> ->]|[-> ->]] HI; by eapply getFieldByIndex_at.
Qed.

(** X5: a lookup by name is a lookup by position: when [getFieldByName]
    succeeds, the name is borne by the field of exactly one position, and
    [getFieldByIndex] with the 1-based index of that position returns the
    same output and leaves the same registry. *)
Theorem lookup_by_name_is_lookup_by_index self pm context name16 name8 pm1 context1 :
  input_Name context = Returns name16 →
  UTF16StringToUTF8 name16 = arrow.Value name8 →
  error context = None →
  getFieldByName self pm context = Returns (pm1, context1) →
  error context1 = None →
  ∃ k f,
    arrow.fields (schema self) !! k = Some f ∧ arrow.name f = name8
    ∧ (∀ j f', arrow.fields (schema self) !! j = Some f' →
               arrow.name f' = name8 → j = k)
    ∧ ∃ a, context1 = set_output context 0 a
        ∧ ∀ contextI, input_Index contextI = Returns (Z.of_nat k + 1) →
            getFieldByIndex self pm contextI = Returns (pm1, set_output contextI 0 a).
Proof.
  intros Hin Hconv Hfresh Hcall Hok.
  destruct (getFieldByName_cases UTF16StringToUTF8 self pm context _ _ Hin Hconv)
    as [[Hone (f & Hcall' & Hf & Hname)]|[_ Hcall']]; rewrite Hcall' in Hcall;
    injection Hcall as <- <-; [|done].
  apply list_elem_of_lookup in Hf as [k Hk].
  exists k, f. split_and!; [done|done| |].
  - intros j f' Hj Hname'. destruct (decide (j = k)) as [|Hne]; [done|].
    apply field_names_lookup in Hj, Hk. rewrite Hname' in Hj. rewrite Hname in Hk.
    pose proof (occurrences_lookup_2 _ _ _ _ Hne Hj Hk). lia.
  - eexists. split; [done|]. intros contextI HI. by eapply getFieldByIndex_at.
Qed.

(** ** What a method leaves behind *)

(** A method that returns has done one of three things: recorded an error
    of its own kind, written an output, or (the two lookups) registered a
    field proxy and written its identifier. *)
Lemma registered_method_shapes self name (m : method) pm context pm' context' :
  (name, m) ∈ registered_methods self →
  m pm context = Returns (pm', context') →
  (pm' = pm
   ∧ ∃ e, context' = set_error context e
     ∧ ((name = "getFieldByIndex"
         ∧ id e ∈ [error.ARROW_TABULAR_SCHEMA_NUMERIC_FIELD_INDEX_WITH_EMPTY_SCHEMA;
                   error.ARROW_TABULAR_SCHEMA_INVALID_NUMERIC_FIELD_INDEX])
        ∨ (name = "getFieldByName"
           ∧ id e ∈ [error.UNICODE_CONVERSION_ERROR_ID;
                     error.ARROW_TABULAR_SCHEMA_AMBIGUOUS_FIELD_NAME])
        ∨ ((name = "getFieldNames" ∨ name = "toString")
           ∧ id e = error.UNICODE_CONVERSION_ERROR_ID)))
  ∨ (pm' = pm
     ∧ (name = "getNumFields" ∨ name = "getFieldNames" ∨ name = "toString")
     ∧ ∃ a, context' = set_output context 0 a)
  ∨ ((name = "getFieldByIndex" ∨ name = "getFieldByName")
     ∧ ∃ f, pm' = (manageProxy pm (Proxy_Field {| field := Some f |})).2
          ∧ context' = set_output context 0
              (mda.TypedArray_uint64 [1; 1]%N [current_proxy_id pm])).
Proof.
  intros Hm Hcall. unfold registered_methods in Hm.
  repeat (apply elem_of_cons in Hm as [[= -> ->]|Hm]).
  - assert (∃ i, input_Index context = Returns i) as [i Hin].
    { unfold getFieldByIndex, input_Index in *. repeat case_outcome. by eexists. }
    destruct (getFieldByIndex_cases self pm context i Hin)
      as [(_ & _ & Hundef)|[(_ & _ & He)|(_ & _ & f & _ & _ & Hf)]].
    + by rewrite Hundef in Hcall.
    + rewrite He in Hcall. injection Hcall as <- <-.
      left. split; [done|]. eexists. split; [done|].
      left. split; [done|]. destruct (_ =? 0); set_solver.
    + rewrite Hf in Hcall. injection Hcall as <- <-.
      right. right. split; [by left|]. by exists f.
  - assert (∃ n, input_Name context = Returns n) as [n Hin].
    { unfold getFieldByName, input_Name in *. repeat case_outcome. by eexists. }
    rewrite (getFieldByName_eq _ _ _ _ _ Hin) in Hcall.
    destruct (UTF16StringToUTF8 n) as [name8|msg].
    + destruct (arrow.GetFieldByName (schema self) name8) as [f|].
      * injection Hcall as <- <-. right. right. split; [by right|]. by exists f.
      * injection Hcall as <- <-. left. split; [done|]. eexists. split; [done|].
        right. left. split; [done|]. set_solver.
    + injection Hcall as <- <-. left. split; [done|]. eexists. split; [done|].
      right. left. split; [done|]. set_solver.
  - unfold getNumFields in Hcall. injection Hcall as <- <-.
    right. left. split_and!; [done|by left|by eexists].
  - destruct (converted_or_failed UTF8StringToUTF16 (arrow.field_names (schema self)))
      as [[ns H]|(pre & bad & post & ns & msg & Heq & H & Hbad)].
    + rewrite (getFieldNames_converted _ _ _ _ _ H) in Hcall.
      injection Hcall as <- <-.
      right. left. split_and!; [done|right; by left|by eexists].
    + rewrite (getFieldNames_failed _ _ _ _ _ _ _ _ _ Heq H Hbad) in Hcall.
      injection Hcall as <- <-. left. split; [done|]. eexists. split; [done|].
      right. right. split; [by left|done].
  - unfold toString, MATLAB_ASSIGN_OR_ERROR_WITH_CONTEXT in Hcall.
    destruct (UTF8StringToUTF16 (ToString (schema self))) as [str|msg].
    + injection Hcall as <- <-.
      right. left. split_and!; [done|right; by right|by eexists].
    + injection Hcall as <- <-. left. split; [done|]. eexists. split; [done|].
      right. right. split; [by right|done].
  - by apply elem_of_nil in Hm.
Qed.

(** X6: [getNumFields], [getFieldNames] and [toString] need no argument and
    touch nothing but the context: on every context, also one without
    inputs, they return, and what they leave in the context is the same for
    every state of the registry, which they return as it was. *)
Theorem readers_leave_registry self (m : method) context :
  m ∈ [getNumFields self; getFieldNames self; toString self] →
  ∃ context',
    inputs context' = inputs context
    ∧ ∀ pm, m pm context = Returns (pm, context').
Proof.
  intros Hm. repeat (apply elem_of_cons in Hm as [->|Hm]).
  - eexists. split; [|intros pm; reflexivity]. done.
  - destruct (converted_or_failed UTF8StringToUTF16 (arrow.field_names (schema self)))
      as [[ns H]|(pre & bad & post & ns & msg & Heq & H & Hbad)].
    + eexists. split; [|intros pm; by apply getFieldNames_converted]. done.
    + eexists. split; [|intros pm; by eapply getFieldNames_failed]. done.
  - unfold toString, MATLAB_ASSIGN_OR_ERROR_WITH_CONTEXT.
    destruct (UTF8StringToUTF16 (ToString (schema self))) as [str|msg].
    + eexists. split; [|intros pm; reflexivity]. done.
    + eexists. split; [|intros pm; reflexivity]. done.
  - by apply elem_of_nil in Hm.
Qed.

(** X7: the errors of the methods, by method: [getFieldByIndex] records
    the empty-schema or the invalid-index error, [getFieldByName] the
    conversion or the ambiguous-name error, [getFieldNames] and [toString]
    the conversion error, and [getNumFields] none. No method records
    [ARROW_TABULAR_SCHEMA_UNKNOWN_FIELD_NAME]: the helper that makes this
    error is not called. *)
Theorem errors_by_method self name (m : method) pm context pm' context' e :
  (name, m) ∈ registered_methods self →
  error context = None →
  m pm context = Returns (pm', context') →
  error context' = Some e →
  ((name = "getFieldByIndex"
    ∧ id e ∈ [error.ARROW_TABULAR_SCHEMA_NUMERIC_FIELD_INDEX_WITH_EMPTY_SCHEMA;
              error.ARROW_TABULAR_SCHEMA_INVALID_NUMERIC_FIELD_INDEX])
   ∨ (name = "getFieldByName"
      ∧ id e ∈ [error.UNICODE_CONVERSION_ERROR_ID;
                error.ARROW_TABULAR_SCHEMA_AMBIGUOUS_FIELD_NAME])
   ∨ ((name = "getFieldNames" ∨ name = "toString")
      ∧ id e = error.UNICODE_CONVERSION_ERROR_ID))
  ∧ name ≠ "getNumFields"
  ∧ id e ≠ error.ARROW_TABULAR_SCHEMA_UNKNOWN_FIELD_NAME
  ∧ (∀ n, id e ≠ id (makeUnknownFieldNameError n)).
Proof.
  intros Hm Hfresh Hcall He.
  destruct (registered_method_shapes _ _ _ _ _ _ _ Hm Hcall)
    as [(_ & e' & -> & Hid)|[(_ & _ & a & ->)|(_ & f & _ & ->)]];
    simpl in He; [|congruence|congruence].
  injection He as ->.
  assert (id e ≠ error.ARROW_TABULAR_SCHEMA_UNKNOWN_FIELD_NAME) as Hne.
  { destruct Hid as [[_ H]|[[_ H]|[_ H]]]; [| |by rewrite H];
      repeat (apply elem_of_cons in H as [->|H]); try done;
      by apply elem_of_nil in H. }
  split_and!; [done| |done|by intros n].
  intros ->. destruct Hid as [[? _]|[[? _]|[[?|?] _]]]; done.
Qed.

(** X8: no method removes or replaces a proxy of the registry, and each
    keeps the invariant of the registry: after a call on a registry whose
    identifiers in use lie below the counter, with the counter not at its
    last value, every proxy is where it was, at most one proxy is new, and
    the identifiers in use still lie below the counter. *)
Theorem methods_keep_registry self name (m : method) k pm context pm' context' :
  (name, m) ∈ registered_methods self →
  registry_ok (N.succ k) pm →
  m pm context = Returns (pm', context') →
  registry_ok k pm'
  ∧ (∀ i p, proxy_map pm !! i = Some p → proxy_map pm' !! i = Some p)
  ∧ (proxy_map pm' = proxy_map pm
     ∨ ∃ p, proxy_map pm !! current_proxy_id pm = None
            ∧ proxy_map pm' = <[current_proxy_id pm := p]> (proxy_map pm)).
Proof.
  intros Hm Hreg Hcall.
  destruct (registered_method_shapes _ _ _ _ _ _ _ Hm Hcall)
    as [(-> & _)|[(-> & _)|(_ & f & -> & _)]].
  - split_and!; [|done|by left].
    apply (registry_ok_weaken (N.succ k)); [lia|done].
  - split_and!; [|done|by left].
    apply (registry_ok_weaken (N.succ k)); [lia|done].
  - pose proof (registry_ok_fresh _ _ Hreg) as Hnew.
    split_and!; [by apply registry_ok_manageProxy| |].
    + intros i p Hi. simpl. rewrite lookup_insert_ne; [done|]. congruence.
    + right. by eexists.
Qed.

(** X9: the identifiers of two lookups in succession differ, whatever the
    schema proxies, the methods and the arguments of the two calls are (the
    registry is one for all proxies), and after the second call the registry
    holds the proxy of each under its identifier; output 0 of each call
    holds the identifier of that call. *)
Theorem successive_lookups_differ
    self1 self2 (m1 m2 : method) pm context1 pm1 context1' context2 pm2 context2' :
  m1 = getFieldByIndex self1 ∨ m1 = getFieldByName self1 →
  m2 = getFieldByIndex self2 ∨ m2 = getFieldByName self2 →
  error context1 = None → error context2 = None →
  m1 pm context1 = Returns (pm1, context1') → error context1' = None →
  m2 pm1 context2 = Returns (pm2, context2') → error context2' = None →
  ∃ id1 id2 f1 f2,
    context1' = set_output context1 0 (mda.TypedArray_uint64 [1; 1]%N [id1])
    ∧ context2' = set_output context2 0 (mda.TypedArray_uint64 [1; 1]%N [id2])
    ∧ id1 ≠ id2
    ∧ proxy_map pm2 !! id1 = Some (Proxy_Field {| field := Some f1 |})
    ∧ proxy_map pm2 !! id2 = Some (Proxy_Field {| field := Some f2 |})
    ∧ outputs context1' !! 0%nat = Some (mda.TypedArray_uint64 [1; 1]%N [id1])
    ∧ outputs context2' !! 0%nat = Some (mda.TypedArray_uint64 [1; 1]%N [id2]).
Proof.
  intros Hm1 Hm2 Hfresh1 Hfresh2 Hcall1 Hok1 Hcall2 Hok2.
  pose proof (lookup_succeeds UTF16StringToUTF8) as Hshape.
  destruct (Hshape _ _ _ _ _ _ Hm1 Hfresh1 Hcall1 Hok1) as (f1 & -> & -> & _).
  destruct (Hshape _ _ _ _ _ _ Hm2 Hfresh2 Hcall2 Hok2) as (f2 & -> & -> & _).
  exists (current_proxy_id pm), (uint64_succ (current_proxy_id pm)), f1, f2.
  pose proof (uint64_succ_ne (current_proxy_id pm)) as Hne.
  split_and!; [done|done|done| | | |]; simpl.
  - rewrite lookup_insert_ne by done. by rewrite lookup_insert_eq.
  - by rewrite lookup_insert_eq.
  - by rewrite lookup_insert_eq.
  - by rewrite lookup_insert_eq.
Qed.

(** X10: [getFieldByName] converts the name before it consults the schema:
    a name whose conversion to UTF-8 fails is refused with
    [UNICODE_CONVERSION_ERROR_ID] and the message of the failed conversion,
    on every schema, with nothing registered and no output written. *)
Theorem getFieldByName_unconvertible_name self pm context name16 msg :
  input_Name context = Returns name16 →
  UTF16StringToUTF8 name16 = arrow.Failed msg →
  getFieldByName self pm context =
    Returns (pm, set_error context
      {| id := error.UNICODE_CONVERSION_ERROR_ID; message := msg |})
  ∧ (∀ self', getFieldByName self' pm context = getFieldByName self pm context).
Proof.
  intros Hin Hconv. split; [|intros self'];
    by rewrite !(getFieldByName_eq _ _ _ _ _ Hin), Hconv.
Qed.

(** X11: a method writes the first output slot or the error record and
    nothing else of the context: the inputs and the other output slots are
    as they were, and an error that was recorded before the call is not
    cleared. *)
Theorem methods_frame self name (m : method) pm context pm' context' :
  (name, m) ∈ registered_methods self →
  m pm context = Returns (pm', context') →
  inputs context' = inputs context
  ∧ (∀ k, k ≠ 0%nat → outputs context' !! k = outputs context !! k)
  ∧ (is_Some (error context) → is_Some (error context'))
  ∧ (outputs context' = outputs context ∨ error context' = error context).
Proof.
  intros Hm Hcall.
  destruct (registered_method_shapes _ _ _ _ _ _ _ Hm Hcall)
    as [(_ & e & -> & _)|[(_ & _ & a & ->)|(_ & f & _ & ->)]]; simpl.
  - split_and!; [done|done|by eexists|by left].
  - split_and!; [done| |done|by right].
    intros k Hk. by rewrite lookup_insert_ne.
  - split_and!; [done| |done|by right].
    intros k Hk. by rewrite lookup_insert_ne.
Qed.

(** ** The lookups and the registry *)

Lemma input_Index_cases context :
  input_Index context = Throws ∨ ∃ i, input_Index context = Returns i.
Proof.
  unfold input_Index, mda.to_StructArray, mda.struct_field,
    mda.to_TypedArray_int32, mda.at_index.
  destruct (inputs context !! 0%nat) as [[| | |dims args]|]; simpl; try by left.
  destruct (args !! 0%nat) as [s|]; simpl; [|by left].
  destruct (mda.assoc "Index" s) as [[dims' data| | |]|]; simpl; try by left.
  destruct (data !! 0%nat); simpl; [right; by eexists|by left].
Qed.

Lemma input_Name_cases context :
  input_Name context = Throws ∨ ∃ n, input_Name context = Returns n.
Proof.
  unfold input_Name, mda.to_StructArray, mda.struct_field,
    mda.to_StringArray, mda.at_index.
  destruct (inputs context !! 0%nat) as [[| | |dims args]|]; simpl; try by left.
  destruct (args !! 0%nat) as [s|]; simpl; [|by left].
  destruct (mda.assoc "Name" s) as [[| |dims' data|]|]; simpl; try by left.
  destruct (data !! 0%nat); simpl; [right; by eexists|by left].
Qed.

Lemma getFieldByIndex_Throws self pm context :
  input_Index context = Throws → getFieldByIndex self pm context = Throws.
Proof.
  unfold input_Index, getFieldByIndex. intros H.
  destruct (mda.to_StructArray _) as [args| |]; simpl in *; try done.
  destruct (mda.struct_field _ _ _) as [a| |]; simpl in *; try done.
  destruct (mda.to_TypedArray_int32 _) as [data| |]; simpl in *; try done.
  destruct (mda.at_index _ _) as [x| |]; simpl in *; done.
Qed.

Lemma getFieldByName_Throws self pm context :
  input_Name context = Throws → getFieldByName self pm context = Throws.
Proof.
  unfold input_Name, getFieldByName. intros H.
  destruct (mda.to_StructArray _) as [args| |]; simpl in *; try done.
  destruct (mda.struct_field _ _ _) as [a| |]; simpl in *; try done.
  destruct (mda.to_StringArray _) as [data| |]; simpl in *; try done.
  destruct (mda.at_index _ _) as [x| |]; simpl in *; done.
Qed.

(** X12: a lookup does not read the registry: for a given context,
    [getFieldByIndex] (and so [getFieldByName]) behaves in one of four ways,
    the same on every registry. It throws (its argument cannot be read); or
    its behaviour is undefined, which is the case of [getFieldByIndex]
    called with the least [int32_t] as the Index and of no other call; or it
    sets one and the same error, leaves the outputs and returns the registry
    as it was; or it registers a proxy of one and the same field, which is a
    field of the schema, never a null pointer, and writes the identifier to
    output 0. *)
Theorem lookups_ignore_registry self (m : method) context :
  m = getFieldByIndex self ∨ m = getFieldByName self →
  (∀ pm, m pm context = Throws)
  ∨ (m = getFieldByIndex self ∧ input_Index context = Returns (- 2 ^ 31)
     ∧ ∀ pm, m pm context = Undefined)
  ∨ (∃ e, ∀ pm, ∃ context',
       m pm context = Returns (pm, context')
       ∧ context' = set_error context e
       ∧ error context' = Some e
       ∧ outputs context' = outputs context)
  ∨ (∃ f, f ∈ arrow.fields (schema self)
          ∧ ∀ pm, ∃ context',
              m pm context =
                Returns ((manageProxy pm (Proxy_Field {| field := Some f |})).2,
                         context')
              ∧ context' = set_output context 0
                  (mda.TypedArray_uint64 [1; 1]%N [current_proxy_id pm])
              ∧ outputs context' !! 0%nat =
                  Some (mda.TypedArray_uint64 [1; 1]%N [current_proxy_id pm])
              ∧ error context' = error context).
Proof.
  intros [->| ->].
  - destruct (input_Index_cases context) as [Hin|[i Hin]].
    { left. intros pm. by apply getFieldByIndex_Throws. }
    right.
    destruct (getFieldByIndex_cases self empty_registry context i Hin)
      as [(-> & _ & _)|[(Hlt & Hout & _)|(Hi & _ & f & Hl & _ & _)]].
    + left. split_and!; [done|done|]. intros pm.
      by destruct (getFieldByIndex_cases self pm context _ Hin)
        as [(_ & _ & ?)|[(? & _ & _)|(? & _)]]; [|lia..].
    + right. left. eexists. intros pm. eexists.
      destruct (getFieldByIndex_cases self pm context _ Hin)
        as [(? & _ & _)|[(_ & _ & He)|(? & _)]]; [lia| |done].
      split; [exact He|]. split_and!; [done|done|done].
    + right. right. exists f. split; [by eapply list_elem_of_lookup_2|].
      intros pm. eexists.
      destruct (getFieldByIndex_cases self pm context _ Hin)
        as [(? & _ & _)|[(_ & ? & _)|(_ & _ & f' & Hl' & _ & Hcall)]];
        [lia|done|].
      assert (f' = f) as -> by congruence.
      split; [exact Hcall|]. split_and!; [done| |done].
      simpl. by rewrite lookup_insert_eq.
  - destruct (input_Name_cases context) as [Hin|[n Hin]].
    { left. intros pm. by apply getFieldByName_Throws. }
    right. right. destruct (UTF16StringToUTF8 n) as [name8|msg] eqn:Hconv.
    + destruct (arrow.GetFieldByName (schema self) name8) as [f|] eqn:Hf.
      * right. exists f. split; [by apply GetFieldByName_Some in Hf as (? & _)|].
        intros pm. eexists.
        split; [by rewrite (getFieldByName_eq _ _ _ _ _ Hin), Hconv, Hf|].
        split_and!; [done| |done]. simpl. by rewrite lookup_insert_eq.
      * left. eexists. intros pm. eexists.
        split; [by rewrite (getFieldByName_eq _ _ _ _ _ Hin), Hconv, Hf|].
        split_and!; done.
    + left. eexists. intros pm. eexists.
      split; [by rewrite (getFieldByName_eq _ _ _ _ _ Hin), Hconv|].
      split_and!; done.
Qed.

(** X13: a field proxy that a lookup hands out can be given to [make]: the
    identifier that [getFieldByIndex] writes to output 0 for a position of a
    schema proxy denotes, in the registry the call leaves, a field proxy of
    which [make] builds the schema of that one field. *)
Theorem getFieldByIndex_then_make self pm context k f :
  arrow.fields (schema self) !! k = Some f →
  input_Index context = Returns (Z.of_nat k + 1) →
  ∃ pm1 id,
    getFieldByIndex self pm context =
      Returns (pm1, set_output context 0 (mda.TypedArray_uint64 [1; 1]%N [id]))
    ∧ (∀ constructor_arguments,
        input_FieldProxyIDs constructor_arguments = Returns [id] →
        make pm1 constructor_arguments = Returns {| schema := arrow.schema [f] |})
    ∧ outputs (set_output context 0 (mda.TypedArray_uint64 [1; 1]%N [id])) !! 0%nat
      = Some (mda.TypedArray_uint64 [1; 1]%N [id]).
Proof.
  intros Hk Hin. do 2 eexists. split; [by eapply getFieldByIndex_at|]. split.
  - intros constructor_arguments Hids. apply (make_held _ _ _ _ Hids).
    constructor; [|constructor]. unfold holds_field. simpl.
    by rewrite lookup_insert_eq.
  - simpl. by rewrite lookup_insert_eq.
Qed.

End further.

(** ** The further properties on the sample *)

Lemma make_outcomes_witness :
  input_FieldProxyIDs (FieldProxyIDs_inputs [0; 7; 3]%N) = Returns [0; 7; 3]%N
  ∧ make scenario.registry_with_schema (FieldProxyIDs_inputs [0; 7; 3]%N) = Throws
  ∧ ¬ ∃ self, make scenario.registry_with_schema (FieldProxyIDs_inputs [0; 7; 3]%N)
              = Returns self.
Proof.
  assert (input_FieldProxyIDs (FieldProxyIDs_inputs [0; 7; 3]%N)
          = Returns [0; 7; 3]%N) as H1 by reflexivity.
  split; [exact H1|].
  destruct (make_outcomes scenario.registry_with_schema _ _ H1) as (HA & HB & _).
  assert (make scenario.registry_with_schema (FieldProxyIDs_inputs [0; 7; 3]%N)
          = Throws) as H2.
  { apply (proj2 HB). exists [0%N], 7%N, [3%N]. split; [reflexivity|]. split.
    - constructor; [|constructor]. eexists. reflexivity.
    - reflexivity. }
  split; [exact H2|]. intros [self Hself]. rewrite H2 in Hself. discriminate Hself.
Defined.

Lemma make_then_getFieldByIndex_witness :
  let context := new_context (Index_inputs 2) in
  input_FieldProxyIDs (FieldProxyIDs_inputs [0; 1; 2]%N) = Returns [0; 1; 2]%N
  ∧ make sample.registry (FieldProxyIDs_inputs [0; 1; 2]%N) = Returns sample.abc
  ∧ [0; 1; 2]%N !! 1%nat = Some 1%N
  ∧ input_Index context = Returns (Z.of_nat 1 + 1)
  ∧ ∃ p, proxy_map sample.registry !! 1%N = Some p
         ∧ getFieldByIndex sample.abc empty_registry context =
             Returns ((manageProxy empty_registry p).2,
                      set_output context 0 (mda.TypedArray_uint64 [1; 1]%N [0%N]))
         ∧ outputs (set_output context 0 (mda.TypedArray_uint64 [1; 1]%N [0%N]))
             !! 0%nat = Some (mda.TypedArray_uint64 [1; 1]%N [0%N]).
Proof.
  intros context.
  assert (input_FieldProxyIDs (FieldProxyIDs_inputs [0; 1; 2]%N)
          = Returns [0; 1; 2]%N) as H1 by reflexivity.
  assert (make sample.registry (FieldProxyIDs_inputs [0; 1; 2]%N)
          = Returns sample.abc) as H2 by reflexivity.
  assert ([0; 1; 2]%N !! 1%nat = Some 1%N) as H3 by reflexivity.
  assert (input_Index context = Returns (Z.of_nat 1 + 1)) as H4 by reflexivity.
  split; [exact H1|]. split; [exact H2|]. split; [exact H3|]. split; [exact H4|].
  destruct (make_then_getFieldByIndex sample.registry _ _ _ _ _ empty_registry context
              H1 H2 H3 H4) as (p & Hp & Hcall & _ & Hout).
  exists p. split; [exact Hp|]. split; [exact Hcall|exact Hout].
Defined.

Lemma make_then_getFieldNames_witness :
  let context := new_context [] in
  let names16 := [[97%N]; [98%N]; [99%N]] in
  input_FieldProxyIDs (FieldProxyIDs_inputs [0; 1; 2]%N) = Returns [0; 1; 2]%N
  ∧ make sample.registry (FieldProxyIDs_inputs [0; 1; 2]%N) = Returns sample.abc
  ∧ sample.getFieldNames sample.abc empty_registry context =
      Returns (empty_registry,
               set_output context 0 (mda.StringArray [1; 3]%N names16))
  ∧ length names16 = length [0; 1; 2]%N.
Proof.
  intros context names16.
  assert (input_FieldProxyIDs (FieldProxyIDs_inputs [0; 1; 2]%N)
          = Returns [0; 1; 2]%N) as H1 by reflexivity.
  assert (make sample.registry (FieldProxyIDs_inputs [0; 1; 2]%N)
          = Returns sample.abc) as H2 by reflexivity.
  assert (outputs context !! 0%nat = None) as H3 by reflexivity.
  assert (sample.getFieldNames sample.abc empty_registry context =
            Returns (empty_registry,
                     set_output context 0 (mda.StringArray [1; 3]%N names16)))
    as H4 by reflexivity.
  split; [exact H1|]. split; [exact H2|]. split; [exact H4|].
  exact (proj2 (make_then_getFieldNames lib.UTF8StringToUTF16 sample.registry
                  _ _ _ _ _ _ _ [1; 3]%N names16 H1 H2 H3 H4 eq_refl)).
Defined.

Lemma duplicate_names_are_ambiguous_witness :
  let context := new_context (Name_inputs [97%N]) in
  input_FieldProxyIDs (FieldProxyIDs_inputs [0; 0; 1]%N) = Returns [0; 0; 1]%N
  ∧ make sample.registry (FieldProxyIDs_inputs [0; 0; 1]%N) = Returns sample.aab
  ∧ holds_field sample.registry 0 (Some sample.field_a)
  ∧ input_Name context = Returns [97%N]
  ∧ lib.UTF16StringToUTF8 [97%N] = arrow.Value (arrow.name sample.field_a)
  ∧ ∃ msg, sample.getFieldByName sample.aab sample.registry context =
      Returns (sample.registry, set_error context
        {| id := error.ARROW_TABULAR_SCHEMA_AMBIGUOUS_FIELD_NAME; message := msg |}).
Proof.
  intros context.
  assert (input_FieldProxyIDs (FieldProxyIDs_inputs [0; 0; 1]%N)
          = Returns [0; 0; 1]%N) as H1 by reflexivity.
  assert (make sample.registry (FieldProxyIDs_inputs [0; 0; 1]%N)
          = Returns sample.aab) as H2 by reflexivity.
  assert (holds_field sample.registry 0 (Some sample.field_a)) as H3 by reflexivity.
  assert (input_Name context = Returns [97%N]) as H4 by reflexivity.
  assert (lib.UTF16StringToUTF8 [97%N] = arrow.Value (arrow.name sample.field_a))
    as H5 by reflexivity.
  split; [exact H1|]. split; [exact H2|]. split; [exact H3|]. split; [exact H4|].
  split; [exact H5|].
  assert (0 ≠ 1)%nat as Hne by discriminate.
  exact (proj1 (duplicate_names_are_ambiguous lib.UTF16StringToUTF8
                  sample.registry _ _ _ 0%nat 1%nat 0%N 0%N
                  sample.field_a sample.field_a [97%N] sample.registry context
                  H1 H2 Hne eq_refl eq_refl H3 H3 eq_refl H4 H5)).
Defined.

Lemma lookup_by_name_is_lookup_by_index_witness :
  let context := new_context (Name_inputs [98%N]) in
  let proxy := Proxy_Field {| field := Some sample.field_b |} in
  let context1 := set_output context 0 (mda.TypedArray_uint64 [1; 1]%N [3%N]) in
  input_Name context = Returns [98%N]
  ∧ lib.UTF16StringToUTF8 [98%N] = arrow.Value "b"
  ∧ sample.getFieldByName sample.aab sample.registry context
    = Returns ((manageProxy sample.registry proxy).2, context1)
  ∧ ∃ k f, arrow.fields (schema sample.aab) !! k = Some f ∧ arrow.name f = "b"
      ∧ ∃ a, context1 = set_output context 0 a
          ∧ ∀ contextI, input_Index contextI = Returns (Z.of_nat k + 1) →
              getFieldByIndex sample.aab sample.registry contextI =
                Returns ((manageProxy sample.registry proxy).2,
                         set_output contextI 0 a).
Proof.
  intros context proxy context1.
  assert (input_Name context = Returns [98%N]) as H1 by reflexivity.
  assert (lib.UTF16StringToUTF8 [98%N] = arrow.Value "b") as H2 by reflexivity.
  assert (error context = None) as H3 by reflexivity.
  assert (sample.getFieldByName sample.aab sample.registry context
          = Returns ((manageProxy sample.registry proxy).2, context1)) as H4
    by reflexivity.
  assert (error context1 = None) as H5 by reflexivity.
  split; [exact H1|]. split; [exact H2|]. split; [exact H4|].
  destruct (lookup_by_name_is_lookup_by_index lib.UTF16StringToUTF8
              sample.aab sample.registry context [98%N] "b" _ _ H1 H2 H3 H4 H5)
    as (k & f & Hk & Hname & _ & a & Ha & Hcall).
  exists k, f. split; [exact Hk|]. split; [exact Hname|].
  exists a. split; [exact Ha|exact Hcall].
Defined.

Lemma readers_leave_registry_witness :
  let context := new_context [] in
  ∃ context',
    inputs context' = inputs context
    ∧ ∀ pm, sample.getFieldNames sample.abc pm context = Returns (pm, context').
Proof.
  intros context.
  apply (readers_leave_registry lib.UTF8StringToUTF16 lib.ToString sample.abc
           (sample.getFieldNames sample.abc) context).
  apply list_elem_of_further, list_elem_of_here.
Defined.

Lemma errors_by_method_witness :
  let context := new_context (Index_inputs 0) in
  let e := {| id := error.ARROW_TABULAR_SCHEMA_INVALID_NUMERIC_FIELD_INDEX;
              message := "Invalid field index: 0. Field index must be between 1 and the number of fields (3)." |} in
  error context = None
  ∧ getFieldByIndex sample.abc sample.registry context
    = Returns (sample.registry, set_error context e)
  ∧ id e ≠ error.ARROW_TABULAR_SCHEMA_UNKNOWN_FIELD_NAME.
Proof.
  intros context e.
  assert (error context = None) as H1 by reflexivity.
  assert (getFieldByIndex sample.abc sample.registry context
          = Returns (sample.registry, set_error context e)) as H2 by reflexivity.
  split; [exact H1|]. split; [exact H2|].
  exact (proj1 (proj2 (proj2 (errors_by_method
           lib.UTF16StringToUTF8 lib.UTF8StringToUTF16 lib.ToString
           sample.abc "getFieldByIndex" (getFieldByIndex sample.abc)
           sample.registry context sample.registry (set_error context e) e
           (list_elem_of_here _ _) H1 H2 eq_refl)))).
Defined.

Lemma methods_keep_registry_witness :
  let context := new_context (Index_inputs 2) in
  let proxy := Proxy_Field {| field := Some sample.field_b |} in
  registry_ok (N.succ 0) sample.registry
  ∧ getFieldByIndex sample.abc sample.registry context
    = Returns ((manageProxy sample.registry proxy).2,
               set_output context 0 (mda.TypedArray_uint64 [1; 1]%N [3%N]))
  ∧ registry_ok 0 (manageProxy sample.registry proxy).2
  ∧ ∀ i p, proxy_map sample.registry !! i = Some p →
           proxy_map (manageProxy sample.registry proxy).2 !! i = Some p.
Proof.
  intros context proxy.
  assert (registry_ok (N.succ 0) sample.registry) as H1
    by exact registry_of_sample_ok.
  assert (getFieldByIndex sample.abc sample.registry context
          = Returns ((manageProxy sample.registry proxy).2,
                     set_output context 0 (mda.TypedArray_uint64 [1; 1]%N [3%N])))
    as H2 by reflexivity.
  split; [exact H1|]. split; [exact H2|].
  destruct (methods_keep_registry
              lib.UTF16StringToUTF8 lib.UTF8StringToUTF16 lib.ToString
              sample.abc "getFieldByIndex" (getFieldByIndex sample.abc) 0
              sample.registry context _ _ (list_elem_of_here _ _) H1 H2)
    as (Hok & Hkeep & _).
  split; [exact Hok|exact Hkeep].
Defined.

Lemma successive_lookups_differ_witness :
  let context1 := new_context (Index_inputs 1) in
  let context2 := new_context (Name_inputs [98%N]) in
  let pm1 := (manageProxy sample.registry
                (Proxy_Field {| field := Some sample.field_a |})).2 in
  let pm2 := (manageProxy pm1 (Proxy_Field {| field := Some sample.field_b |})).2 in
  getFieldByIndex sample.abc sample.registry context1
  = Returns (pm1, set_output context1 0 (mda.TypedArray_uint64 [1; 1]%N [3%N]))
  ∧ sample.getFieldByName sample.aab pm1 context2
    = Returns (pm2, set_output context2 0 (mda.TypedArray_uint64 [1; 1]%N [4%N]))
  ∧ ∃ id1 id2 f1 f2,
      id1 ≠ id2
      ∧ proxy_map pm2 !! id1 = Some (Proxy_Field {| field := Some f1 |})
      ∧ proxy_map pm2 !! id2 = Some (Proxy_Field {| field := Some f2 |})
      ∧ outputs (set_output context1 0 (mda.TypedArray_uint64 [1; 1]%N [3%N]))
          !! 0%nat = Some (mda.TypedArray_uint64 [1; 1]%N [id1])
      ∧ outputs (set_output context2 0 (mda.TypedArray_uint64 [1; 1]%N [4%N]))
          !! 0%nat = Some (mda.TypedArray_uint64 [1; 1]%N [id2]).
Proof.
  intros context1 context2 pm1 pm2.
  assert (getFieldByIndex sample.abc sample.registry context1
          = Returns (pm1, set_output context1 0
                            (mda.TypedArray_uint64 [1; 1]%N [3%N]))) as H1
    by reflexivity.
  assert (sample.getFieldByName sample.aab pm1 context2
          = Returns (pm2, set_output context2 0
                            (mda.TypedArray_uint64 [1; 1]%N [4%N]))) as H2
    by reflexivity.
  split; [exact H1|]. split; [exact H2|].
  destruct (successive_lookups_differ lib.UTF16StringToUTF8
              sample.abc sample.aab
              (getFieldByIndex sample.abc) (sample.getFieldByName sample.aab)
              sample.registry context1 _ _ context2 _ _
              (or_introl eq_refl) (or_intror eq_refl) eq_refl eq_refl
              H1 eq_refl H2 eq_refl)
    as (id1 & id2 & f1 & f2 & _ & _ & Hne & Hid1 & Hid2 & Hout1 & Hout2).
  exists id1, id2, f1, f2. split; [exact Hne|]. split; [exact Hid1|].
  split; [exact Hid2|]. split; [exact Hout1|exact Hout2].
Defined.

Lemma getFieldByName_unconvertible_name_witness :
  let context := new_context (Name_inputs [0xDC00%N]) in
  input_Name context = Returns [0xDC00%N]
  ∧ lib.UTF16StringToUTF8 [0xDC00%N] = arrow.Failed "Invalid UTF16 sequence"
  ∧ sample.getFieldByName sample.abc sample.registry context =
      Returns (sample.registry, set_error context
        {| id := error.UNICODE_CONVERSION_ERROR_ID;
           message := "Invalid UTF16 sequence" |}).
Proof.
  intros context.
  assert (input_Name context = Returns [0xDC00%N]) as H1 by reflexivity.
  assert (lib.UTF16StringToUTF8 [0xDC00%N] = arrow.Failed "Invalid UTF16 sequence")
    as H2 by reflexivity.
  split; [exact H1|]. split; [exact H2|].
  exact (proj1 (getFieldByName_unconvertible_name lib.UTF16StringToUTF8
                  sample.abc sample.registry context _ _ H1 H2)).
Defined.

Lemma methods_frame_witness :
  let context :=
    {| inputs := []; outputs := {[ 1%nat := mda.createScalar_int32 5 ]};
       error := None |} in
  ∃ context',
    sample.toString sample.abc sample.registry context
    = Returns (sample.registry, context')
    ∧ inputs context' = inputs context
    ∧ outputs context' !! 1%nat = Some (mda.createScalar_int32 5).
Proof.
  intros context.
  assert (∃ context', sample.toString sample.abc sample.registry context
                      = Returns (sample.registry, context')) as [context' H1]
    by (eexists; reflexivity).
  exists context'. split; [exact H1|].
  destruct (methods_frame lib.UTF16StringToUTF8 lib.UTF8StringToUTF16 lib.ToString
              sample.abc "toString" (sample.toString sample.abc)
              sample.registry context _ _
              (list_elem_of_further _ _ _ (list_elem_of_further _ _ _
                (list_elem_of_further _ _ _ (list_elem_of_further _ _ _
                  (list_elem_of_here _ _))))) H1)
    as (Hin & Hout & _).
  split; [exact Hin|]. rewrite (Hout 1%nat); [reflexivity|discriminate].
Defined.

Lemma lookups_ignore_registry_witness :
  let context := new_context (Index_inputs 2) in
  let least := new_context (Index_inputs (- 2 ^ 31)) in
  (∃ f, f ∈ arrow.fields (schema sample.abc)
        ∧ ∀ pm, ∃ context',
            getFieldByIndex sample.abc pm context =
              Returns ((manageProxy pm (Proxy_Field {| field := Some f |})).2,
                       context')
            ∧ outputs context' !! 0%nat =
                Some (mda.TypedArray_uint64 [1; 1]%N [current_proxy_id pm]))
  ∧ ∀ pm, getFieldByIndex sample.abc pm least = Undefined.
Proof.
  intros context least. split.
  - destruct (lookups_ignore_registry lib.UTF16StringToUTF8 sample.abc
                (getFieldByIndex sample.abc) context (or_introl eq_refl))
      as [Hthrows|[(_ & _ & Hundef)|[[e He]|(f & Hf & Hall)]]].
    + exfalso. pose proof (Hthrows empty_registry) as H. discriminate H.
    + exfalso. pose proof (Hundef empty_registry) as H. discriminate H.
    + exfalso. destruct (He empty_registry) as (c & H & -> & _). discriminate H.
    + exists f. split; [exact Hf|]. intros pm.
      destruct (Hall pm) as (c & Hcall & _ & Hout & _).
      exists c. split; [exact Hcall|exact Hout].
  - destruct (lookups_ignore_registry lib.UTF16StringToUTF8 sample.abc
                (getFieldByIndex sample.abc) least (or_introl eq_refl))
      as [Hthrows|[(_ & _ & Hundef)|[[e He]|(f & Hf & Hall)]]].
    + exfalso. pose proof (Hthrows empty_registry) as H. discriminate H.
    + exact Hundef.
    + exfalso. destruct (He empty_registry) as (c & H & _). discriminate H.
    + exfalso. destruct (Hall empty_registry) as (c & H & _). discriminate H.
Defined.

Lemma getFieldByIndex_then_make_witness :
  let context := new_context (Index_inputs 2) in
  arrow.fields (schema sample.abc) !! 1%nat = Some sample.field_b
  ∧ input_Index context = Returns (Z.of_nat 1 + 1)
  ∧ ∃ pm1 id,
      getFieldByIndex sample.abc sample.registry context =
        Returns (pm1, set_output context 0 (mda.TypedArray_uint64 [1; 1]%N [id]))
      ∧ make pm1 (FieldProxyIDs_inputs [id])
        = Returns {| schema := arrow.schema [sample.field_b] |}
      ∧ outputs (set_output context 0 (mda.TypedArray_uint64 [1; 1]%N [id]))
          !! 0%nat = Some (mda.TypedArray_uint64 [1; 1]%N [id]).
Proof.
  intros context.
  assert (arrow.fields (schema sample.abc) !! 1%nat = Some sample.field_b) as H1
    by reflexivity.
  assert (input_Index context = Returns (Z.of_nat 1 + 1)) as H2 by reflexivity.
  split; [exact H1|]. split; [exact H2|].
  destruct (getFieldByIndex_then_make sample.abc sample.registry context _ _ H1 H2)
    as (pm1 & id & Hcall & Hmake & Hout).
  exists pm1, id. split; [exact Hcall|]. split; [|exact Hout].
  apply Hmake. reflexivity.
Defined.
